(** * PixelPeek: answer validation and round state

    A shallow embedding of the answer validator
    ([lib/advancedAnswerValidator.js]), of the game reducer
    ([context/GameContext.jsx]) and of the guess and load handlers of
    [App.jsx], followed by the properties of the design document that
    concern them.

    Conventions of the embedding.
    - A JavaScript string is a [string]: a sequence of code units below 256
      (the Latin-1 range).  [toLowerCase], [trim] and the regular expression
      classes [\w] and [\s] are written out for that range.
    - A JavaScript number is a [number]: an exact rational, or one of the
      special values [NaN], [PosInf], [NegInf] that a division by zero
      produces.  The rounding of IEEE doubles is not modelled.
    - Counters of the round (score, blur, attempts, hint level) are integers.
    - A remote call is represented by its outcome, passed as an argument. *)

From Stdlib Require Import QArith Ascii.
From stdpp Require Import gmap strings list pretty.
Close Scope Q_scope.

(** ** JavaScript strings *)

Module JsString.

Definition code (c : ascii) : N := N_of_ascii c.

Definition in_range (lo hi : N) (c : ascii) : bool :=
  ((lo <=? code c) && (code c <=? hi))%N.

(** White space and line terminators: the characters removed by
    [String.prototype.trim] and matched by [\s]. *)
Definition is_space (c : ascii) : bool :=
  in_range 9 13 c || (code c =? 32)%N || (code c =? 160)%N.

(** The class [\w], that is [A-Za-z0-9_]. *)
Definition is_word (c : ascii) : bool :=
  in_range 65 90 c || in_range 97 122 c || in_range 48 57 c
  || (code c =? 95)%N.

Definition lower_char (c : ascii) : ascii :=
  if in_range 65 90 c || (in_range 192 222 c && negb (code c =? 215)%N)
  then ascii_of_N (code c + 32) else c.

Fixpoint map_chars (f : ascii → ascii) (s : string) : string :=
  match s with
  | EmptyString => EmptyString
  | String c r => String (f c) (map_chars f r)
  end.

Fixpoint filter_chars (p : ascii → bool) (s : string) : string :=
  match s with
  | EmptyString => EmptyString
  | String c r => if p c then String c (filter_chars p r) else filter_chars p r
  end.

Definition toLowerCase (s : string) : string := map_chars lower_char s.

Fixpoint trimStart (s : string) : string :=
  match s with
  | EmptyString => EmptyString
  | String c r => if is_space c then trimStart r else s
  end.

Fixpoint trimEnd (s : string) : string :=
  match s with
  | EmptyString => EmptyString
  | String c r =>
      match trimEnd r with
      | EmptyString => if is_space c then EmptyString else String c EmptyString
      | r' => String c r'
      end
  end.

Definition trim (s : string) : string := trimEnd (trimStart s).

(** [s.includes(sub)] *)
Fixpoint includes (s sub : string) : bool :=
  String.prefix sub s ||
  match s with
  | EmptyString => false
  | String _ r => includes r sub
  end.

(** [s.replace(/[^\w\s]/g, "")] *)
Definition strip_punct (s : string) : string :=
  filter_chars (λ c, is_word c || is_space c) s.

(** [s.split(/\s+/)]: the pieces between the maximal runs of white space;
    a run at either end of [s] leaves an empty piece there, and the empty
    string splits into one empty piece.  [cur] is the piece being read, in
    reverse; [in_sep] tells that the previous character was white space. *)
Fixpoint split_go (cur : string) (in_sep : bool) (s : string) : list string :=
  match s with
  | EmptyString => [String.rev cur]
  | String c r =>
      if is_space c then
        if in_sep then split_go cur true r
        else String.rev cur :: split_go EmptyString true r
      else split_go (String c cur) false r
  end.

Definition split_ws (s : string) : list string := split_go EmptyString false s.

(** Upper-casing of the letters [a-z]: what [toUpperCase] does on a string
    of code units below 128.  It stands for [toUpperCase] in the concrete
    runs below, whose labels are such strings. *)
Definition upper_char (c : ascii) : ascii :=
  if in_range 97 122 c then ascii_of_N (code c - 32) else c.

Definition toUpperCase_ascii (s : string) : string := map_chars upper_char s.

(** [s[i]], [None] standing for [undefined]. *)
Definition charAt (s : string) (i : nat) : option ascii := String.get i s.

End JsString.

(** ** JavaScript numbers *)

Module JsNumber.

Inductive number : Type :=
| Fin (q : Q)
| PosInf
| NegInf
| NaN.

(** [a / b] for two non-negative integers (lengths and sizes). *)
Definition div_nat (a b : nat) : number :=
  match b, a with
  | O, O => NaN
  | O, S _ => PosInf
  | S _, _ => Fin (Z.of_nat a # Pos.of_nat b)
  end.

Definition sub (x y : number) : number :=
  match x, y with
  | NaN, _ | _, NaN => NaN
  | Fin p, Fin q => Fin (p - q)
  | Fin _, PosInf => NegInf
  | Fin _, NegInf => PosInf
  | PosInf, PosInf => NaN
  | PosInf, _ => PosInf
  | NegInf, NegInf => NaN
  | NegInf, _ => NegInf
  end.

(** [x >= y]; every comparison with [NaN] is false. *)
Definition geb (x y : number) : bool :=
  match x, y with
  | NaN, _ | _, NaN => false
  | _, NegInf => true
  | PosInf, _ => true
  | Fin p, Fin q => Qle_bool q p
  | Fin _, PosInf => false
  | NegInf, _ => false
  end.

(** [Math.max(x, y)]; [NaN] as soon as one argument is [NaN]. *)
Definition max (x y : number) : number :=
  match x, y with
  | NaN, _ | _, NaN => NaN
  | _, _ => if geb x y then x else y
  end.

(** Truthiness of a number: [0] and [NaN] are falsy. *)
Definition truthy (x : number) : bool :=
  match x with
  | Fin q => negb (Qeq_bool q 0)
  | NaN => false
  | _ => true
  end.

(** [x || d] *)
Definition or_else (x d : number) : number := if truthy x then x else d.

(** [0 <= x <= 1] *)
Definition in_unit_interval (x : number) : Prop :=
  match x with
  | Fin q => (0 <= q)%Q ∧ (q <= 1)%Q
  | _ => False
  end.

End JsNumber.

(** ** The answer validator ([lib/advancedAnswerValidator.js]) *)

Module Validator.
Import JsString JsNumber.

(** A matrix is an array of rows.  Every access of [levenshteinDistance]
    is within the bounds of the matrix allocated at its start, so that what
    JavaScript does out of range (reading [undefined], growing the array)
    does not arise; here such a read gives [0] and such a write is
    dropped. *)
Definition matrix_get (m : list (list nat)) (j i : nat) : nat :=
  default 0 (m !! j ≫= λ row, row !! i).

Definition matrix_set (m : list (list nat)) (j i v : nat) : list (list nat) :=
  alter (λ row, <[i:=v]> row) j m.

Definition indicator (str1 str2 : string) (i j : nat) : nat :=
  if decide (charAt str1 (i - 1) = charAt str2 (j - 1)) then 0 else 1.

(** The body of the inner loop: the middle argument of [Math.min] reads the
    cell [matrix[j][i]] that is being assigned. *)
Definition lev_cell (str1 str2 : string) (j : nat)
    (m : list (list nat)) (i : nat) : list (list nat) :=
  matrix_set m j i
    (Nat.min (matrix_get m j (i - 1) + 1)
       (Nat.min (matrix_get m j i + 1)
          (matrix_get m (j - 1) (i - 1) + indicator str1 str2 i j))).

Definition lev_row (str1 str2 : string) (len1 : nat)
    (m : list (list nat)) (j : nat) : list (list nat) :=
  foldl (lev_cell str1 str2 j) m (seq 1 len1).

Definition levenshteinDistance (str1 str2 : string) : nat :=
  let len1 := String.length str1 in
  let len2 := String.length str2 in
  let matrix := replicate (len2 + 1) (replicate (len1 + 1) 0) in
  let matrix := foldl (λ m i, matrix_set m 0 i i) matrix (seq 0 (len1 + 1)) in
  let matrix := foldl (λ m j, matrix_set m j 0 j) matrix (seq 0 (len2 + 1)) in
  let matrix := foldl (lev_row str1 str2 len1) matrix (seq 1 len2) in
  matrix_get matrix len2 len1.

Definition tokenizeAndNormalize (text : string) : list string :=
  filter (λ t, 0 < String.length t) (split_ws (strip_punct (toLowerCase text))).

Definition jaccardSimilarity (tokens1 tokens2 : list string) : number :=
  let set1 : gset string := list_to_set tokens1 in
  let set2 : gset string := list_to_set tokens2 in
  let intersection : gset string :=
    list_to_set (filter (λ x, x ∈ set2) (elements set1)) in
  let union : gset string :=
    list_to_set (elements set1 ++ elements set2) in
  div_nat (size intersection) (size union).

Definition fuzzyMatchScore (guess answer : string) : number :=
  let maxLen := Nat.max (String.length guess) (String.length answer) in
  if decide (maxLen = 0) then Fin 1
  else
    let distance := levenshteinDistance guess answer in
    sub (Fin 1) (div_nat distance maxLen).

Inductive Strategy : Type :=
| EMPTY | EXACT | SUBSTRING | FUZZY | JACCARD | GEMINI_SEMANTIC | REJECTED.

Definition strategy_name (s : Strategy) : string :=
  match s with
  | EMPTY => "EMPTY"
  | EXACT => "EXACT"
  | SUBSTRING => "SUBSTRING"
  | FUZZY => "FUZZY"
  | JACCARD => "JACCARD"
  | GEMINI_SEMANTIC => "GEMINI_SEMANTIC"
  | REJECTED => "REJECTED"
  end.

(** The value returned by [validateAnswerAdvanced].  Its [score] field, a
    rounded percentage that the callers only log, is left out. *)
Record Verdict : Type := mkVerdict {
  isValid : bool;
  confidence : number;
  reasoning : string;
  strategy : Strategy;
}.

(** What the remote judge answered, once parsed: the truthiness of
    [result.isValid], [result.confidence] ([NaN] when the field is
    missing, which [||] treats alike) and [result.reasoning]. *)
Record JudgeReply : Type := mkJudgeReply {
  j_isValid : bool;
  j_confidence : number;
  j_reasoning : string;
}.

Definition q_070 : number := Fin (7 # 10).
Definition q_095 : number := Fin (95 # 100).
Definition q_060 : number := Fin (6 # 10).
Definition q_085 : number := Fin (85 # 100).
Definition q_050 : number := Fin (5 # 10).

(** [judge] is the outcome of the request to the remote judge, should the
    cascade reach it: [None] when the request fails, the response is not
    [ok] or its text is not valid JSON.  The description only goes into
    the prompt of that request. *)
Definition validateAnswerAdvanced (judge : option JudgeReply)
    (userGuess correctAnswer imageDescription : string) : Verdict :=
  let normalizedGuess := trim (toLowerCase userGuess) in
  let normalizedAnswer := trim (toLowerCase correctAnswer) in
  if decide (normalizedGuess = "") then
    mkVerdict false (Fin 0) "Empty guess" EMPTY
  else if decide (normalizedGuess = normalizedAnswer) then
    mkVerdict true (Fin 1) "Exact match" EXACT
  else
    let matchRatio :=
      div_nat
        (Nat.min (String.length normalizedGuess) (String.length normalizedAnswer))
        (Nat.max (String.length normalizedGuess) (String.length normalizedAnswer)) in
    if (includes normalizedGuess normalizedAnswer
        || includes normalizedAnswer normalizedGuess)
       && geb matchRatio q_070 then
      mkVerdict true matchRatio "Strong substring match" SUBSTRING
    else
      let fuzzyScore := fuzzyMatchScore normalizedGuess normalizedAnswer in
      if geb fuzzyScore q_095 then
        mkVerdict true fuzzyScore "High fuzzy match score" FUZZY
      else
        let guessTokens := tokenizeAndNormalize normalizedGuess in
        let answerTokens := tokenizeAndNormalize normalizedAnswer in
        let jaccardScore := jaccardSimilarity guessTokens answerTokens in
        let tokenCountMatch :=
          div_nat (Nat.min (length guessTokens) (length answerTokens))
                  (Nat.max (length guessTokens) (length answerTokens)) in
        if geb jaccardScore q_095 && geb tokenCountMatch q_060 then
          mkVerdict true jaccardScore "Exact word overlap match" JACCARD
        else
          let rejection :=
            mkVerdict false (max fuzzyScore jaccardScore)
              "Guess does not match answer" REJECTED in
          match judge with
          | Some result =>
              if j_isValid result
                 && geb (or_else (j_confidence result) (Fin 0)) q_085 then
                mkVerdict true (or_else (j_confidence result) q_050)
                  (if decide (j_reasoning result = "") then "Gemini validation"
                   else j_reasoning result)
                  GEMINI_SEMANTIC
              else rejection
          | None => rejection
          end.

End Validator.

(** ** The game state and its reducer ([context/GameContext.jsx]) *)

Module GameContext.

Record State : Type := mkState {
  imageUrl : string;
  desc : string;
  label : string;
  guess : string;
  score : Z;
  attempts : Z;
  revealed : bool;
  loading : bool;
  blur : Z;
  hint : string;
  hintLevel : Z;
  previousHints : list string;
  highScore : Z;
}.

Inductive Action : Type :=
| SET_IMAGE (payload : string)
| SET_LOADING (payload : bool)
| SET_GUESS (payload : string)
| SET_BLUR (payload : Z)
| SET_HINT (payload : string)
| SET_HINT_LEVEL (payload : Z)
| ADD_PREVIOUS_HINT (payload : string)
| INCREMENT_ATTEMPTS
| DECREMENT_SCORE (payload : Z)
| SET_SCORE (payload : Z)
| REVEAL_ANSWER
| SET_HIGH_SCORE (payload : Z)
| RESET_GAME
| SET_LABEL (payload : string)
| SET_DESC (payload : string)
| SET_PREVIOUS_HINTS (payload : list string).

Definition initialState : State := {|
  imageUrl := "";
  desc := "";
  label := "";
  guess := "";
  score := 100;
  attempts := 0;
  revealed := false;
  loading := true;
  blur := 20;
  hint := "Analyzing data...";
  hintLevel := 0;
  previousHints := [];
  highScore := 0;
|}.

(** The object spreads [{ ...state, field: value }], one per field. *)
Definition with_imageUrl (v : string) (s : State) : State :=
  mkState v (desc s) (label s) (guess s) (score s) (attempts s) (revealed s)
    (loading s) (blur s) (hint s) (hintLevel s) (previousHints s) (highScore s).
Definition with_desc (v : string) (s : State) : State :=
  mkState (imageUrl s) v (label s) (guess s) (score s) (attempts s) (revealed s)
    (loading s) (blur s) (hint s) (hintLevel s) (previousHints s) (highScore s).
Definition with_label (v : string) (s : State) : State :=
  mkState (imageUrl s) (desc s) v (guess s) (score s) (attempts s) (revealed s)
    (loading s) (blur s) (hint s) (hintLevel s) (previousHints s) (highScore s).
Definition with_guess (v : string) (s : State) : State :=
  mkState (imageUrl s) (desc s) (label s) v (score s) (attempts s) (revealed s)
    (loading s) (blur s) (hint s) (hintLevel s) (previousHints s) (highScore s).
Definition with_score (v : Z) (s : State) : State :=
  mkState (imageUrl s) (desc s) (label s) (guess s) v (attempts s) (revealed s)
    (loading s) (blur s) (hint s) (hintLevel s) (previousHints s) (highScore s).
Definition with_attempts (v : Z) (s : State) : State :=
  mkState (imageUrl s) (desc s) (label s) (guess s) (score s) v (revealed s)
    (loading s) (blur s) (hint s) (hintLevel s) (previousHints s) (highScore s).
Definition with_revealed (v : bool) (s : State) : State :=
  mkState (imageUrl s) (desc s) (label s) (guess s) (score s) (attempts s) v
    (loading s) (blur s) (hint s) (hintLevel s) (previousHints s) (highScore s).
Definition with_loading (v : bool) (s : State) : State :=
  mkState (imageUrl s) (desc s) (label s) (guess s) (score s) (attempts s)
    (revealed s) v (blur s) (hint s) (hintLevel s) (previousHints s) (highScore s).
Definition with_blur (v : Z) (s : State) : State :=
  mkState (imageUrl s) (desc s) (label s) (guess s) (score s) (attempts s)
    (revealed s) (loading s) v (hint s) (hintLevel s) (previousHints s) (highScore s).
Definition with_hint (v : string) (s : State) : State :=
  mkState (imageUrl s) (desc s) (label s) (guess s) (score s) (attempts s)
    (revealed s) (loading s) (blur s) v (hintLevel s) (previousHints s) (highScore s).
Definition with_hintLevel (v : Z) (s : State) : State :=
  mkState (imageUrl s) (desc s) (label s) (guess s) (score s) (attempts s)
    (revealed s) (loading s) (blur s) (hint s) v (previousHints s) (highScore s).
Definition with_previousHints (v : list string) (s : State) : State :=
  mkState (imageUrl s) (desc s) (label s) (guess s) (score s) (attempts s)
    (revealed s) (loading s) (blur s) (hint s) (hintLevel s) v (highScore s).
Definition with_highScore (v : Z) (s : State) : State :=
  mkState (imageUrl s) (desc s) (label s) (guess s) (score s) (attempts s)
    (revealed s) (loading s) (blur s) (hint s) (hintLevel s) (previousHints s) v.

Definition gameReducer (state : State) (action : Action) : State :=
  match action with
  | SET_IMAGE payload => with_imageUrl payload state
  | SET_LOADING payload => with_loading payload state
  | SET_GUESS payload => with_guess payload state
  | SET_BLUR payload => with_blur payload state
  | SET_HINT payload => with_hint payload state
  | SET_HINT_LEVEL payload => with_hintLevel (Z.min payload 4) state
  | ADD_PREVIOUS_HINT payload =>
      with_previousHints (previousHints state ++ [payload]) state
  | INCREMENT_ATTEMPTS => with_attempts (attempts state + 1) state
  | DECREMENT_SCORE payload => with_score (Z.max 0 (score state - payload)) state
  | SET_SCORE payload => with_score payload state
  | REVEAL_ANSWER => with_blur 0 (with_revealed true state)
  | SET_HIGH_SCORE payload => with_highScore payload state
  | SET_LABEL payload => with_label payload state
  | SET_DESC payload => with_desc payload state
  | SET_PREVIOUS_HINTS payload => with_previousHints payload state
  | RESET_GAME => {|
      imageUrl := "";
      desc := "";
      label := "";
      guess := "";
      score := 100;
      attempts := 0;
      revealed := false;
      loading := true;
      blur := 20;
      hint := "Analyzing data...";
      hintLevel := 0;
      previousHints := [];
      highScore := highScore state;
    |}
  end.

(** A run of [dispatch] calls, applied in order to the store. *)
Definition dispatch_all (actions : list Action) (state : State) : State :=
  foldl gameReducer state actions.

End GameContext.

(** ** The handlers of the game board ([App.jsx]) *)

Module App.
Import JsString JsNumber Validator GameContext.

Definition MAX_ATTEMPTS : Z := 5.
Definition BLUR_DECREMENT : Z := 4.
Definition INITIAL_BLUR : Z := 20.
Definition SCORE_DECREMENT : Z := 15.

(** The outcomes of the remote calls of one [handleGuess]: the judge's
    reply (see [validateAnswerAdvanced]), the string returned by
    [generateContextualHint], and the hint returned by
    [generateHintFromAI] ([None] when it throws). *)
Record GuessEnv : Type := mkGuessEnv {
  judge : option JudgeReply;
  contextualHint : string;
  aiHint : option string;
}.

(** The outcomes of the remote calls of one [loadNewImage]: the image data
    [(imageUrl, description)] ([None] when the fetch fails after its
    retries) and the first hint ([None] when its generation throws). *)
Record LoadEnv : Type := mkLoadEnv {
  imageData : option (string * string);
  firstHint : option string;
}.

Section Handlers.

(** [String.prototype.toUpperCase], which leaves the Latin-1 range on some
    characters; only the text of the game-over hint depends on it. *)
Variable toUpperCase : string → string.

Definition loadNewImage (env : LoadEnv) (state : State) : State :=
  let state := gameReducer state RESET_GAME in
  match imageData env with
  | Some (url, description) =>
      dispatch_all
        [ SET_IMAGE url;
          SET_DESC description;
          SET_LABEL description;
          SET_HINT "> Scanning image...";
          SET_HINT (match firstHint env with
                    | Some h => "> " +:+ h
                    | None => "> Image loaded. Begin guessing..."
                    end);
          SET_LOADING false ] state
  | None =>
      dispatch_all
        [ SET_HINT "> ERROR: Unable to load"; SET_LOADING false ] state
  end.

(** The guard at the head of [handleGuess]. *)
Definition guess_blocked (state : State) : bool :=
  revealed state || loading state.

Definition validation (env : GuessEnv) (state : State) : Verdict :=
  validateAnswerAdvanced (judge env) (guess state) (label state) (desc state).

(** Dispatched before the validation is awaited. *)
Definition on_submit : list Action := [ SET_HINT "> Validating answer..." ].

Definition on_correct (v : Verdict) (state : State) : list Action :=
  [ REVEAL_ANSWER;
    SET_HINT ("> CORRECT! (" +:+ strategy_name (strategy v)
              +:+ ") - Score: " +:+ pretty (score state)) ]
  ++ (if decide (highScore state < score state)%Z
      then [ SET_HIGH_SCORE (score state) ] else []).

Definition wrong_guess_updates (state : State) : list Action :=
  [ INCREMENT_ATTEMPTS;
    DECREMENT_SCORE SCORE_DECREMENT;
    SET_BLUR (Z.max 0 (blur state - BLUR_DECREMENT)) ].

Definition on_game_over (state : State) : list Action :=
  [ REVEAL_ANSWER;
    SET_SCORE 0;
    SET_HINT ("> GAME OVER (5 attempts). Answer: " +:+ toUpperCase (label state)) ].

(** The contextual hint, or the standard one when it is shorter than five
    characters; [None] when the standard hint throws. *)
Definition next_hint (env : GuessEnv) : option string :=
  if (String.length (contextualHint env) <? 5)%nat then aiHint env
  else Some (contextualHint env).

Definition on_hint (env : GuessEnv) (state : State) : list Action :=
  let lvl := (hintLevel state + 1)%Z in
  [ SET_HINT (match next_hint env with
              | Some nextHint => "> " +:+ nextHint
              | None => "> Try another guess..."
              end);
    SET_HINT_LEVEL lvl;
    ADD_PREVIOUS_HINT (hint state) ].

(** What [handleGuess] dispatches once the validation has resolved, and
    whether it then awaits the hints.  [state] is the state captured by
    the handler's closure. *)
Definition after_validation (env : GuessEnv) (state : State)
    : list Action * bool :=
  let v := validation env state in
  if isValid v then
    (on_correct v state ++ [ SET_GUESS "" ], false)
  else
    let newAttempts := (attempts state + 1)%Z in
    if decide (MAX_ATTEMPTS ≤ newAttempts)%Z then
      (wrong_guess_updates state ++ on_game_over state ++ [ SET_GUESS "" ],
       false)
    else
      (wrong_guess_updates state ++ [ SET_HINT "> Analyzing your guess..." ],
       true).

(** What it dispatches once the hints have resolved. *)
Definition after_hints (env : GuessEnv) (state : State) : list Action :=
  on_hint env state ++ [ SET_GUESS "" ].

Definition handleGuess_actions (env : GuessEnv) (state : State) : list Action :=
  let '(actions, hints) := after_validation env state in
  on_submit ++ actions ++ (if hints then after_hints env state else []).

(** One run of [handleGuess] with nothing else happening in between.  The
    calls to the analytics service only log.  The [catch] around the
    validation is not reached: [validateAnswerAdvanced] handles the failures
    of its request itself. *)
Definition handleGuess (env : GuessEnv) (state : State) : State :=
  if guess_blocked state then state
  else dispatch_all (handleGuess_actions env state) state.

Definition handleGuessChange (value : string) (state : State) : State :=
  gameReducer state (SET_GUESS value).

(** *** A round played in sequence *)

Inductive Move : Type :=
| TypeGuess (value : string)
| SubmitGuess (env : GuessEnv).

Definition guess_accepted (env : GuessEnv) (state : State) : bool :=
  negb (guess_blocked state) && isValid (validation env state).

(** The state of the round, and whether one of its guesses was accepted. *)
Definition move_step (st : State * bool) (m : Move) : State * bool :=
  match m with
  | TypeGuess value => (handleGuessChange value st.1, st.2)
  | SubmitGuess env =>
      (handleGuess env st.1, st.2 || guess_accepted env st.1)
  end.

Definition play (moves : list Move) (state : State) : State * bool :=
  foldl move_step (state, false) moves.

(** Typing and submitting each guess of a list. *)
Definition submit_all (guesses : list (string * GuessEnv)) (state : State)
    : State :=
  foldl (λ s ge, handleGuess ge.2 (handleGuessChange ge.1 s)) state guesses.

(** *** Handlers suspended at their [await]s

    [handleGuess] is an [async] function: it runs up to the [await] of
    the validation, later up to the [await] of the hints, later to its
    end, and other events are handled in between.  Each suspended call
    keeps the state of its closure. *)

Inductive Stage : Type := AwaitValidation | AwaitHints.

Record Pending : Type := mkPending {
  closure : State;
  env_of : GuessEnv;
  stage : Stage;
}.

Record Session : Type := mkSession {
  store : State;
  inflight : list Pending;
}.

Inductive Event : Type :=
| Typed (value : string)
| Submitted (env : GuessEnv)
| Resumed (k : nat).

Definition session_step (ss : Session) (e : Event) : Session :=
  match e with
  | Typed value => mkSession (handleGuessChange value (store ss)) (inflight ss)
  | Submitted env =>
      if guess_blocked (store ss) then ss
      else mkSession (dispatch_all on_submit (store ss))
             (inflight ss ++ [ mkPending (store ss) env AwaitValidation ])
  | Resumed k =>
      match inflight ss !! k with
      | None => ss
      | Some p =>
          match stage p with
          | AwaitValidation =>
              let '(actions, hints) := after_validation (env_of p) (closure p) in
              mkSession (dispatch_all actions (store ss))
                (if hints
                 then <[k := mkPending (closure p) (env_of p) AwaitHints]> (inflight ss)
                 else delete k (inflight ss))
          | AwaitHints =>
              mkSession
                (dispatch_all (after_hints (env_of p) (closure p)) (store ss))
                (delete k (inflight ss))
          end
      end
  end.

Definition session_run (events : list Event) (ss : Session) : Session :=
  foldl session_step ss events.

End Handlers.

End App.

(** ** The design document's reading of the preprocessing *)

Module Design.
Import JsString.

(** The normalization as the design document words it: "normalize both
    guess and answer by lower-casing, stripping all characters outside
    [[a-z0-9 ]], and collapsing whitespace".  It is not part of the
    validator, with which it is compared below. *)
Definition keeps (c : ascii) : bool :=
  in_range 97 122 c || in_range 48 57 c || (code c =? 32)%N.

Fixpoint join_words (ws : list string) : string :=
  match ws with
  | [] => ""
  | [w] => w
  | w :: rest => w +:+ " " +:+ join_words rest
  end.

Definition design_normalize (s : string) : string :=
  join_words
    (filter (λ t, 0 < String.length t)
       (split_ws (filter_chars keeps (toLowerCase s)))).

End Design.

Import JsString JsNumber Validator GameContext App.

(** ** Predicates used in the further statements *)

(** Every character of a string satisfies [p]. *)
Fixpoint string_forall (p : ascii → bool) (s : string) : bool :=
  match s with
  | EmptyString => true
  | String c r => p c && string_forall p r
  end.

(** The characters [a-z], [0-9] and [_]. *)
Definition is_lower_word (c : ascii) : bool :=
  in_range 97 122 c || in_range 48 57 c || (code c =? 95)%N.

(** The first [n] characters of a string. *)
Fixpoint string_take (n : nat) (s : string) : string :=
  match n, s with
  | S n', String c r => String c (string_take n' r)
  | _, _ => EmptyString
  end.

(** What the loops of [levenshteinDistance] leave in the cell of row [j]
    and column [i]: the index on the first row and the first column, and
    elsewhere [0] on the diagonal as long as the two strings agree, [1]
    everywhere else. *)
Definition lev_cell_value (str1 str2 : string) (j i : nat) : nat :=
  match j, i with
  | O, _ => i
  | _, O => j
  | _, _ =>
      if decide (i = j ∧ string_take i str1 = string_take i str2) then 0 else 1
  end.

(** A matrix of [rows] rows of [cols] cells each. *)
Definition matrix_dims (rows cols : nat) (m : list (list nat)) : Prop :=
  length m = rows ∧ ∀ j row, m !! j = Some row → length row = cols.

(** The state of the matrix while [levenshteinDistance] runs on [str1] and
    [str2]: the cells already [assigned] hold their final value, the others
    the [0] they were allocated with. *)
Definition matrix_filled (str1 str2 : string) (assigned : nat → nat → Prop)
    (m : list (list nat)) : Prop :=
  matrix_dims (String.length str2 + 1) (String.length str1 + 1) m
  ∧ ∀ j i, j ≤ String.length str2 → i ≤ String.length str1 →
      (assigned j i → matrix_get m j i = lev_cell_value str1 str2 j i)
      ∧ (¬ assigned j i → matrix_get m j i = 0).

(** ** Batch validation ([validateAnswerBatch]) *)

Module Batch.
Import JsNumber Validator.

(** [x > 0] *)
Definition positive (x : number) : bool :=
  match x with
  | Fin q => negb (Qle_bool q 0)
  | PosInf => true
  | _ => false
  end.

(** [x > y] *)
Definition gtb (x y : number) : bool :=
  match x, y with
  | NaN, _ | _, NaN => false
  | Fin p, Fin q => negb (Qle_bool p q)
  | PosInf, PosInf => false
  | PosInf, _ => true
  | NegInf, _ => false
  | Fin _, NegInf => true
  | Fin _, PosInf => false
  end.

(** An element [{ answer, ...result }] of the results. *)
Record Entry : Type := mkEntry {
  answer : string;
  result : Verdict;
}.

(** The comparator [(a, b) => b.confidence - a.confidence]. *)
Definition by_confidence (a b : Entry) : number :=
  sub (confidence (result b)) (confidence (result a)).

(** [results.sort(by_confidence)].  The sort of an array is stable, and an
    element moves behind another exactly when the comparator is positive on
    them: for a comparator that orders the elements consistently, as this
    one does when no confidence is [NaN], that is the stable insertion
    below.  With a [NaN] among the confidences the order is left to the
    engine, and this definition does not speak for it. *)
Fixpoint insert_entry (x : Entry) (l : list Entry) : list Entry :=
  match l with
  | [] => [x]
  | y :: l' =>
      if positive (by_confidence x y) then y :: insert_entry x l'
      else x :: y :: l'
  end.

Definition sort_entries (l : list Entry) : list Entry := foldr insert_entry [] l.

Record BatchResult : Type := mkBatchResult {
  bestMatch : Entry;
  allResults : list Entry;
  consensus : bool;
}.

(** Each possible answer comes with the outcome of its own request to the
    judge.  [None] stands for the [TypeError] that reading
    [results[0].confidence] throws when there is no result. *)
Definition validateAnswerBatch (userGuess : string)
    (possibleAnswers : list (string * option JudgeReply))
    (imageDescription : string) : option BatchResult :=
  let results :=
    map (λ aj, mkEntry aj.1
                 (validateAnswerAdvanced aj.2 userGuess aj.1 imageDescription))
        possibleAnswers in
  let results := sort_entries results in
  match results with
  | [] => None
  | best :: _ =>
      Some (mkBatchResult best results
              (gtb (confidence (result best)) (Fin (75 # 100))))
  end.

(** The head of a list of results has the greatest confidence of the list. *)
Definition head_is_best (l : list Entry) : Prop :=
  match l with
  | [] => True
  | best :: _ =>
      Forall (λ e, geb (confidence (result best)) (confidence (result e)) = true) l
  end.

End Batch.

(** ** A game: rounds loaded and played one after the other *)

Module Game.
Import GameContext App.

Section Game.
Variable toUpperCase : string → string.

(** [handleSkip] and [handleNext] both call [loadNewImage]. *)
Inductive GameMove : Type :=
| LoadImage (env : LoadEnv)
| TypeText (value : string)
| Submit (env : GuessEnv).

Definition game_step (state : State) (m : GameMove) : State :=
  match m with
  | LoadImage env => loadNewImage env state
  | TypeText value => handleGuessChange value state
  | Submit env => handleGuess toUpperCase env state
  end.

Definition game_run (moves : list GameMove) (state : State) : State :=
  foldl game_step state moves.

End Game.

(** What the state of a round is, given its number of attempts: while it
    is not revealed, the score, the blur, the hint level and the number of
    past hints follow from the attempts; once revealed the blur is [0] and
    the score is [0] after five attempts, or the score at which a guess was
    accepted. *)
Definition round_by_attempts (st : State * bool) : Prop :=
  let s := st.1 in
  loading s = false
  ∧ (revealed s = false →
       st.2 = false
       ∧ (0 ≤ attempts s ≤ 4)%Z
       ∧ score s = (100 - 15 * attempts s)%Z
       ∧ blur s = (20 - 4 * attempts s)%Z
       ∧ hintLevel s = attempts s
       ∧ Z.of_nat (length (previousHints s)) = attempts s)
  ∧ (revealed s = true →
       blur s = 0%Z
       ∧ ((st.2 = false ∧ attempts s = 5%Z ∧ score s = 0%Z)
          ∨ (st.2 = true ∧ (0 ≤ attempts s ≤ 4)%Z
             ∧ score s = (100 - 15 * attempts s)%Z))).

End Game.

(** Actions that cannot make the score or the blur negative. *)
Definition bounded_action (a : Action) : Prop :=
  match a with
  | SET_BLUR payload | SET_SCORE payload => (0 ≤ payload)%Z
  | _ => True
  end.

(** A score and a blur that are not negative, a hint level of at most [4]. *)
Definition counters_in_range (s : State) : Prop :=
  (0 ≤ score s)%Z ∧ (0 ≤ blur s)%Z ∧ (hintLevel s ≤ 4)%Z.

(** ** Retrying a request ([lib/apiService.js]) *)

Module ApiService.

(** How [fetchWithRetry] ends: with the value of a call that succeeded,
    with the error of the last call, or, when the loop runs no iteration,
    with [undefined]. *)
Inductive RetryOutcome (E A : Type) : Type :=
| Returned (a : A)
| Thrown (e : E)
| ReturnedUndefined.
Arguments Returned {E A} a.
Arguments Thrown {E A} e.
Arguments ReturnedUndefined {E A}.

(** A run: its outcome, the number of calls of [fn] and the delays, in
    milliseconds, that were waited between them. *)
Record RetryRun (E A : Type) : Type := mkRetryRun {
  outcome : RetryOutcome E A;
  calls : nat;
  waits : list nat;
}.
Arguments mkRetryRun {E A} outcome calls waits.
Arguments outcome {E A} r.
Arguments calls {E A} r.
Arguments waits {E A} r.

Section Retry.
Context {E A : Type}.

(** [fn i] is what the call of [fn] made by iteration [i] does: it throws
    ([inl]) or returns ([inr]).  [remaining] counts the iterations left, from
    [i] up to [maxRetries]. *)
Fixpoint retry_from (fn : nat → E + A) (maxRetries delay : nat)
    (remaining i : nat) : RetryRun E A :=
  match remaining with
  | O => mkRetryRun ReturnedUndefined 0 []
  | S remaining' =>
      match fn i with
      | inr a => mkRetryRun (Returned a) 1 []
      | inl error =>
          if decide (i = maxRetries - 1) then mkRetryRun (Thrown error) 1 []
          else
            let rest := retry_from fn maxRetries delay remaining' (S i) in
            mkRetryRun (outcome rest) (S (calls rest))
              (delay * 2 ^ i :: waits rest)
      end
  end.

Definition fetchWithRetry (fn : nat → E + A) (maxRetries delay : nat)
    : RetryRun E A :=
  retry_from fn maxRetries delay maxRetries 0.

End Retry.

End ApiService.

(** ** What a session resolves *)

(** The verdict that event [e] resolves in session [ss], if it resumes a
    handler that awaits its validation: [true] for an accepted guess,
    [false] for a rejected one. *)
Definition resolved_verdict (ss : Session) (e : Event) : option bool :=
  match e with
  | Resumed k =>
      match inflight ss !! k with
      | Some p =>
          match stage p with
          | AwaitValidation =>
              Some (isValid (validation (env_of p) (closure p)))
          | AwaitHints => None
          end
      | None => None
      end
  | _ => None
  end.

Section Verdicts.
Variable toUpperCase : string → string.

(** The verdicts that a run of events resolves, in order. *)
Fixpoint verdicts (events : list Event) (ss : Session) : list bool :=
  match events with
  | [] => []
  | e :: events' =>
      option_list (resolved_verdict ss e)
      ++ verdicts events' (session_step toUpperCase ss e)
  end.

(** The number of wrong guesses of a run, and whether one of its guesses
    was accepted. *)
Definition rejections (events : list Event) (ss : Session) : nat :=
  length (filter (λ b : bool, b = false) (verdicts events ss)).

Definition some_accepted (events : list Event) (ss : Session) : bool :=
  existsb id (verdicts events ss).

End Verdicts.

(** A suspended handler is behind the store: the attempts of its closure
    are at most those of the store, and the hint level that it will set, one
    more than that of its closure, is at most the number of attempts that
    the store will have by then. *)
Definition pending_behind (s : State) (p : Pending) : Prop :=
  (attempts (closure p) ≤ attempts s)%Z
  ∧ match stage p with
    | AwaitValidation => (hintLevel (closure p) ≤ attempts s)%Z
    | AwaitHints => (hintLevel (closure p) + 1 ≤ attempts s)%Z
    end.

(** What holds of a session and of the record of its accepted guesses from
    the start of its round on, however its handlers interleave. *)
Definition session_invariant (st : Session * bool) : Prop :=
  (0 ≤ score (store st.1))%Z
  ∧ (hintLevel (store st.1) ≤ attempts (store st.1))%Z
  ∧ Forall (pending_behind (store st.1)) (inflight st.1)
  ∧ (revealed (store st.1) = true →
     (MAX_ATTEMPTS ≤ attempts (store st.1))%Z ∨ st.2 = true)
  ∧ (st.2 = true → revealed (store st.1) = true).

(** ** Predicates used in the statements *)

(** Actions that leave the image, its description and its label alone. *)
Definition round_action (a : Action) : bool :=
  match a with
  | SET_LABEL _ | SET_DESC _ | SET_IMAGE _ | RESET_GAME => false
  | _ => true
  end.

(** The invariant of the three loops: the cell of row [j] and column [i]
    holds at most [max i j]. *)
Definition cells_bounded (m : list (list nat)) : Prop :=
  ∀ j i, matrix_get m j i ≤ Nat.max i j.

(** The cells outside the first row and the first column hold [0] before
    the loops fill them, and [0] or [1] afterwards: [cells_small] for all of
    them, [cells_untouched m j i] for those that the loops have yet to assign
    when they are about to assign the cell of row [j] and column [i]. *)
Definition cells_small (m : list (list nat)) : Prop :=
  ∀ j' i', 1 ≤ j' → 1 ≤ i' → matrix_get m j' i' ≤ 1.

Definition cells_untouched (m : list (list nat)) (j i : nat) : Prop :=
  ∀ j' i', 1 ≤ j' → 1 ≤ i' → j < j' ∨ (j' = j ∧ i ≤ i') → matrix_get m j' i' = 0.

(** The judge kept its word: the confidence of its reply, if it replied
    and its reply has one, is at most [1].  A reply without a confidence
    ([NaN]) is not constrained. *)
Definition judge_within_one (judge : option JudgeReply) : Prop :=
  match judge with
  | Some result =>
      match j_confidence result with
      | Fin q => (q <= 1)%Q
      | PosInf => False
      | NegInf | NaN => True
      end
  | None => True
  end.

(** What holds of a round and of the record of its accepted guesses, from
    its start on. *)
Definition round_invariant (st : State * bool) : Prop :=
  (0 ≤ score st.1)%Z
  ∧ (0 ≤ blur st.1)%Z
  ∧ (hintLevel st.1 ≤ attempts st.1)%Z
  ∧ (0 ≤ attempts st.1 ≤ MAX_ATTEMPTS)%Z
  ∧ loading st.1 = false
  ∧ (revealed st.1 = true ↔ attempts st.1 = MAX_ATTEMPTS ∨ st.2 = true).

(** ** Concrete data for the runs *)

(** A round on a picture of a lighthouse, just loaded. *)
Definition lighthouse_round : State :=
  loadNewImage (mkLoadEnv (Some ("https://images.example/1", "lighthouse")) None)
    initialState.

(** Remote calls that bring nothing: the judge fails, the contextual hint is
    empty and the standard hint throws. *)
Definition no_help : GuessEnv := mkGuessEnv None "" None.

Definition five_wrong_guesses : list (string * GuessEnv) :=
  [ ("cat", no_help); ("dog", no_help); ("", no_help);
    ("a boat", no_help); ("tower", no_help) ].

(** One wrong guess, typed, submitted and carried to its end with nothing
    in between. *)
Definition wrong_guess_in_turn (g : string) : list Event :=
  [ Typed g; Submitted no_help; Resumed 0; Resumed 0 ].

(** Four wrong guesses in turn, then two submitted one after the other
    before either is evaluated. *)
Definition racing_guesses : list Event :=
  wrong_guess_in_turn "cat" ++ wrong_guess_in_turn "dog"
  ++ wrong_guess_in_turn "a boat" ++ wrong_guess_in_turn "tower"
  ++ [ Typed "ship"; Submitted no_help; Submitted no_help; Resumed 0; Resumed 0 ].

(** Three wrong guesses in turn, then two submitted one after the other
    before either is evaluated, and both carried to their ends. *)
Definition overlapping_last_two : list Event :=
  wrong_guess_in_turn "cat" ++ wrong_guess_in_turn "dog"
  ++ wrong_guess_in_turn "a boat"
  ++ [ Typed "ship"; Submitted no_help; Submitted no_help;
       Resumed 0; Resumed 1; Resumed 0; Resumed 0 ].

(** Two wrong guesses submitted one after the other before either is
    evaluated; the first has been evaluated, the second not yet. *)
Definition second_of_two_pending : list Event :=
  [ Typed "cat"; Submitted no_help; Submitted no_help; Resumed 0 ].

(** A wrong guess, then the right one submitted while the wrong one is
    still being evaluated; the right one is evaluated first. *)
Definition late_wrong_guess : list Event :=
  [ Typed "cat"; Submitted no_help;
    Typed "lighthouse"; Submitted no_help; Resumed 1 ].

(** The right guess submitted, a wrong one submitted and evaluated while
    the first is pending, then the right guess submitted once more: the
    first right guess has been evaluated, the second not yet. *)
Definition racing_right_guesses : list Event :=
  [ Typed "Lighthouse"; Submitted no_help;
    Typed "cat"; Submitted no_help; Resumed 1; Resumed 1;
    Typed "lighthouse"; Submitted no_help; Resumed 0 ].

(** The round with one guess submitted and not yet evaluated. *)
Definition one_pending : Session :=
  session_run toUpperCase_ascii [ Typed "cat"; Submitted no_help ]
    (mkSession lighthouse_round []).

(** * Properties *)

(** ** The reducer *)

(** C10: [RESET_GAME] keeps [highScore] and gives every other field its
    initial value, whatever the state it is applied to; [loadNewImage], which
    skip and next call, starts from that state. *)
Theorem reset_game_keeps_only_highScore :
  ∀ state : State,
    gameReducer state RESET_GAME = with_highScore (highScore state) initialState
    ∧ gameReducer state RESET_GAME
      = {| imageUrl := ""; desc := ""; label := ""; guess := "";
           score := 100; attempts := 0; revealed := false; loading := true;
           blur := 20; hint := "Analyzing data..."; hintLevel := 0;
           previousHints := []; highScore := highScore state |}
    ∧ ∀ env : LoadEnv,
        highScore (loadNewImage env state) = highScore state
        ∧ score (loadNewImage env state) = 100%Z
        ∧ attempts (loadNewImage env state) = 0%Z
        ∧ blur (loadNewImage env state) = 20%Z
        ∧ hintLevel (loadNewImage env state) = 0%Z
        ∧ previousHints (loadNewImage env state) = []
        ∧ revealed (loadNewImage env state) = false
        ∧ guess (loadNewImage env state) = "".
Proof.
  intros state. split; [reflexivity|]. split; [reflexivity|].
  intros [[[url description]|] first]; repeat split.
Qed.

(** ** Frame lemmas: what a guess never touches *)

Lemma round_action_frame (a : Action) (s : State) :
  round_action a = true →
  label (gameReducer s a) = label s ∧ desc (gameReducer s a) = desc s.
Proof. destruct a; simpl; intros ?; try discriminate; split; reflexivity. Qed.

Lemma round_actions_frame (acts : list Action) (s : State) :
  forallb round_action acts = true →
  label (dispatch_all acts s) = label s ∧ desc (dispatch_all acts s) = desc s.
Proof.
  revert s. induction acts as [|a acts IH]; intros s H; simpl in *; [done|].
  apply andb_prop in H as [Ha Hacts].
  destruct (IH (gameReducer s a) Hacts) as [-> ->].
  by apply round_action_frame.
Qed.

Section HandlerFacts.
Variable toUpperCase : string → string.

Abbreviation handleGuess := (App.handleGuess toUpperCase).
Abbreviation after_validation := (App.after_validation toUpperCase).
Abbreviation session_step := (App.session_step toUpperCase).
Abbreviation session_run := (App.session_run toUpperCase).
Abbreviation play := (App.play toUpperCase).
Abbreviation move_step := (App.move_step toUpperCase).

Lemma after_validation_round_actions env s :
  forallb round_action (after_validation env s).1 = true.
Proof.
  unfold App.after_validation, on_correct.
  repeat (case_match || case_decide); reflexivity.
Qed.

Lemma after_hints_round_actions env s :
  forallb round_action (after_hints env s) = true.
Proof. reflexivity. Qed.

Lemma handleGuess_actions_round_actions env s :
  forallb round_action (handleGuess_actions toUpperCase env s) = true.
Proof.
  unfold handleGuess_actions.
  pose proof (after_validation_round_actions env s) as H.
  destruct (after_validation env s) as [acts hints]; simpl in *.
  rewrite forallb_app, H. by destruct hints.
Qed.

Lemma handleGuess_frame env s :
  label (handleGuess env s) = label s ∧ desc (handleGuess env s) = desc s.
Proof.
  unfold App.handleGuess. destruct (guess_blocked s); [done|].
  apply round_actions_frame, handleGuess_actions_round_actions.
Qed.

Lemma move_step_frame st m :
  label (move_step st m).1 = label st.1 ∧ desc (move_step st m).1 = desc st.1.
Proof. destruct m; simpl; [done|]. apply handleGuess_frame. Qed.

Lemma play_from_frame moves st :
  label (foldl move_step st moves).1 = label st.1
  ∧ desc (foldl move_step st moves).1 = desc st.1.
Proof.
  revert st. induction moves as [|m moves IH]; intros st; simpl; [done|].
  destruct (IH (move_step st m)) as [-> ->]. apply move_step_frame.
Qed.

Lemma session_step_frame ss e :
  label (store (session_step ss e)) = label (store ss)
  ∧ desc (store (session_step ss e)) = desc (store ss).
Proof.
  destruct e as [v|env|k]; cbn -[dispatch_all after_hints]; [done| |].
  - by destruct (guess_blocked (store ss)).
  - destruct (inflight ss !! k) as [p|]; [|done].
    destruct (stage p).
    + pose proof (after_validation_round_actions (env_of p) (closure p)) as H.
      destruct (after_validation (env_of p) (closure p)) as [acts hints].
      by apply round_actions_frame.
    + by apply round_actions_frame.
Qed.

Lemma session_run_frame events ss :
  label (store (session_run events ss)) = label (store ss)
  ∧ desc (store (session_run events ss)) = desc (store ss).
Proof.
  revert ss. induction events as [|e events IH]; intros ss; simpl; [done|].
  unfold App.session_run in *. simpl.
  destruct (IH (session_step ss e)) as [-> ->]. apply session_step_frame.
Qed.

(** C9: a loaded round has its label and its description both equal to the
    description of the fetched image (both empty when the fetch failed),
    and no guess, typed or submitted, in sequence or interleaved with
    suspended ones, changes either: the two are equal throughout the
    round. *)
Theorem round_label_is_its_description :
  ∀ (lenv : LoadEnv) (before : State),
    let start := loadNewImage lenv before in
    let description :=
      match imageData lenv with Some (_, d) => d | None => "" end in
    (label start = description ∧ desc start = description)
    ∧ (∀ moves : list Move,
         label (play moves start).1 = description
         ∧ desc (play moves start).1 = description)
    ∧ (∀ (events : list Event) (pending : list Pending),
         label (store (session_run events (mkSession start pending))) = description
         ∧ desc (store (session_run events (mkSession start pending))) = description).
Proof.
  intros lenv before start description.
  assert (Hstart : label start = description ∧ desc start = description).
  { subst start description. unfold loadNewImage.
    destruct (imageData lenv) as [[url d]|]; simpl; done. }
  split; [exact Hstart|]. destruct Hstart as [Hl Hd]. split.
  - intros moves. unfold App.play.
    destruct (play_from_frame moves (start, false)) as [-> ->]. done.
  - intros events pending.
    destruct (session_run_frame events (mkSession start pending)) as [-> ->].
    done.
Qed.

End HandlerFacts.

(** ** The match engine *)

(** The Jaccard score is the quotient of the sizes of the intersection and
    of the union of the two token sets. *)
Lemma jaccard_sets (tokens1 tokens2 : list string) :
  jaccardSimilarity tokens1 tokens2
  = div_nat (size (list_to_set tokens1 ∩ list_to_set tokens2 : gset string))
            (size (list_to_set tokens1 ∪ list_to_set tokens2 : gset string)).
Proof.
  unfold jaccardSimilarity. f_equal; f_equal.
  - apply set_eq. intros x.
    rewrite elem_of_list_to_set, list_elem_of_filter, elem_of_elements.
    rewrite elem_of_intersection. tauto.
  - rewrite list_to_set_app_L, !list_to_set_elements_L. done.
Qed.

Lemma list_to_set_empty_inv (l : list string) :
  (list_to_set l : gset string) = ∅ → l = [].
Proof.
  destruct l as [|x l]; [done|]. simpl. intros H. exfalso.
  apply (not_elem_of_empty (C:=gset string) x).
  rewrite <- H. apply elem_of_union_l. by apply elem_of_singleton.
Qed.

Lemma div_nat_NaN (a b : nat) : div_nat a b = NaN ↔ a = 0 ∧ b = 0.
Proof. destruct a, b; simpl; split; intros H; try done; by destruct H. Qed.

(** The score is not a number exactly when neither list has a token. *)
Lemma jaccard_NaN_without_tokens (tokens1 tokens2 : list string) :
  jaccardSimilarity tokens1 tokens2 = NaN ↔ tokens1 = [] ∧ tokens2 = [].
Proof.
  rewrite jaccard_sets, div_nat_NaN. split.
  - intros [_ Hu]. apply size_empty_inv in Hu.
    apply leibniz_equiv in Hu. apply empty_union_L in Hu as [H1 H2].
    split; by apply list_to_set_empty_inv.
  - intros [-> ->]. done.
Qed.

(** C4: the function has no guard for an empty union: on two empty token
    lists it divides [0] by [0] and returns [NaN], not [0].  The validator
    reaches that case with a guess and an answer made of punctuation only,
    and then reports [NaN] as its confidence. *)
Theorem jaccard_of_no_tokens_is_NaN :
  jaccardSimilarity [] [] = NaN
  ∧ jaccardSimilarity [] [] ≠ Fin 0
  ∧ tokenizeAndNormalize "!!" = []
  ∧ tokenizeAndNormalize "??" = []
  ∧ jaccardSimilarity (tokenizeAndNormalize "!!") (tokenizeAndNormalize "??") = NaN.
Proof. repeat split; try done. Qed.

(** C3: on the final-rejection path the confidence is
    [Math.max(fuzzyScore, jaccardScore)], which is [NaN] when the Jaccard
    score is: for the guess ["!!"] and the answer ["??"], or the empty answer
    of a round whose image failed to load, whatever the description, with a
    judge that fails. *)
Theorem confidence_of_rejection_can_be_NaN :
  ∀ imageDescription : string,
    let v := validateAnswerAdvanced None "!!" "??" imageDescription in
    let w := validateAnswerAdvanced None "!!" "" imageDescription in
    (strategy v = REJECTED ∧ confidence v = NaN ∧ ¬ in_unit_interval (confidence v))
    ∧ (strategy w = REJECTED ∧ confidence w = NaN ∧ ¬ in_unit_interval (confidence w)).
Proof. intros d. vm_compute. repeat split; try done. Qed.

(** C2 (as it holds): the validator lower-cases and trims and does nothing
    else, so that [EXACT] is returned exactly when the lower-cased, trimmed
    strings are equal and not empty; ["Sunset!!"] keeps its punctuation and
    is accepted for ["sunset"] as a substring match, with the ratio of the
    lengths [6/8] as its confidence. *)
Theorem exact_compares_lowercased_trimmed :
  (∀ (judge : option JudgeReply) (userGuess correctAnswer imageDescription : string),
     strategy (validateAnswerAdvanced judge userGuess correctAnswer imageDescription)
     = EXACT
     ↔ trim (toLowerCase userGuess) ≠ ""
       ∧ trim (toLowerCase userGuess) = trim (toLowerCase correctAnswer))
  ∧ (∀ (judge : option JudgeReply) (imageDescription : string),
       validateAnswerAdvanced judge "Sunset!!" "sunset" imageDescription
       = mkVerdict true (Fin (6 # 8)) "Strong substring match" SUBSTRING).
Proof.
  split.
  - intros judge g a d. unfold validateAnswerAdvanced.
    repeat (case_decide || case_match); simpl;
      (split; [intros ? | intros [? ?]]; first [done | congruence]).
  - intros judge d. reflexivity.
Qed.

(** C2 (as stated) fails: the preprocessing of the validator differs from
    the normalization of the design document on ["Sunset!!"], and the
    verdict is neither [EXACT] nor of confidence [1]. *)
Lemma sunset_is_not_an_exact_match :
  trim (toLowerCase "Sunset!!") = "sunset!!"
  ∧ Design.design_normalize "Sunset!!" = "sunset"
  ∧ strategy (validateAnswerAdvanced None "Sunset!!" "sunset" "") ≠ EXACT
  ∧ confidence (validateAnswerAdvanced None "Sunset!!" "sunset" "") ≠ Fin 1.
Proof. repeat split; try done. Qed.

(** *** The range of the scores *)

Lemma foldl_invariant {A B} (P : A → Prop) (Q : B → Prop)
    (f : A → B → A) (l : list B) (a : A) :
  P a → Forall Q l → (∀ a b, P a → Q b → P (f a b)) → P (foldl f a l).
Proof.
  intros Ha Hl Hf. revert a Ha.
  induction Hl as [|b l Hb Hl IH]; intros a Ha; simpl; [done|].
  apply IH, Hf; done.
Qed.

Lemma seq_from_one (n : nat) : Forall (λ i, 1 ≤ i) (seq 1 n).
Proof. apply Forall_forall. intros i Hi%list_elem_of_In%in_seq. lia. Qed.

(** A cell read after a write holds the value written, if it is the cell
    written, or what it held before. *)
Lemma matrix_get_set (m : list (list nat)) (j i v j' i' : nat) :
  matrix_get (matrix_set m j i v) j' i' = matrix_get m j' i'
  ∨ (j' = j ∧ i' = i ∧ matrix_get (matrix_set m j i v) j' i' = v).
Proof.
  unfold matrix_get, matrix_set.
  destruct (decide (j = j')) as [->|Hj].
  - rewrite list_lookup_alter_eq. destruct (m !! j') as [row|]; simpl; [|by left].
    destruct (decide (i = i')) as [->|Hi].
    + destruct (decide (i' < length row)) as [Hlt|Hge].
      * right. by rewrite list_lookup_insert_eq.
      * left. rewrite list_insert_ge by lia. done.
    + left. by rewrite list_lookup_insert_ne.
  - left. by rewrite list_lookup_alter_ne.
Qed.

Lemma cells_bounded_set (m : list (list nat)) (j i v : nat) :
  cells_bounded m → v ≤ Nat.max i j → cells_bounded (matrix_set m j i v).
Proof.
  intros Hm Hv j' i'.
  destruct (matrix_get_set m j i v j' i') as [->|(-> & -> & ->)]; [apply Hm|done].
Qed.

Lemma cells_bounded_zero (rows cols : nat) :
  cells_bounded (replicate rows (replicate cols 0)).
Proof.
  intros j i. unfold matrix_get.
  destruct (replicate rows (replicate cols 0) !! j) as [row|] eqn:Hrow; simpl; [|lia].
  apply lookup_replicate in Hrow as [-> _].
  destruct (replicate cols 0 !! i) as [x|] eqn:Hx; simpl; [|lia].
  apply lookup_replicate in Hx as [-> _]. lia.
Qed.

Lemma cells_bounded_lev_cell (str1 str2 : string) (j i : nat) (m : list (list nat)) :
  1 ≤ j → 1 ≤ i → cells_bounded m → cells_bounded (lev_cell str1 str2 j m i).
Proof.
  intros Hj Hi Hm. unfold lev_cell. apply cells_bounded_set; [done|].
  pose proof (Hm (j - 1) (i - 1)).
  unfold indicator. case_decide; lia.
Qed.

Lemma levenshteinDistance_bound (str1 str2 : string) :
  levenshteinDistance str1 str2 ≤ Nat.max (String.length str1) (String.length str2).
Proof.
  unfold levenshteinDistance.
  match goal with |- matrix_get ?m _ _ ≤ _ => cut (cells_bounded m) end.
  { intros H. apply H. }
  apply (foldl_invariant cells_bounded (λ j, 1 ≤ j)); [| apply seq_from_one |].
  - apply (foldl_invariant cells_bounded (λ _, True)); [| by apply Forall_true |].
    + apply (foldl_invariant cells_bounded (λ _, True)); [| by apply Forall_true |].
      * apply cells_bounded_zero.
      * intros m i Hm _. apply cells_bounded_set; [done|lia].
    + intros m j Hm _. apply cells_bounded_set; [done|lia].
  - intros m j Hm Hj. unfold lev_row.
    apply (foldl_invariant cells_bounded (λ i, 1 ≤ i)); [done | apply seq_from_one |].
    intros m' i Hm' Hi. by apply cells_bounded_lev_cell.
Qed.

(** *** The distance that the matrix yields

    The middle argument of [Math.min] reads the cell that is being assigned,
    which still holds the [0] it was allocated with: the result is at most
    [1] as soon as both strings have a character. *)

Lemma foldl_seq_invariant {A} (P : nat → A → Prop) (f : A → nat → A)
    (n a : nat) (x : A) :
  P a x →
  (∀ k y, a ≤ k < a + n → P k y → P (S k) (f y k)) →
  P (a + n) (foldl f x (seq a n)).
Proof.
  revert a x. induction n as [|n IH]; intros a x Hx Hf; simpl.
  { by rewrite Nat.add_0_r. }
  replace (a + S n) with (S a + n) by lia.
  apply IH; [apply Hf; [lia|done]|].
  intros k y Hk. apply Hf. lia.
Qed.

Lemma matrix_get_set_other (m : list (list nat)) (j i v j' i' : nat) :
  j' ≠ j ∨ i' ≠ i →
  matrix_get (matrix_set m j i v) j' i' = matrix_get m j' i'.
Proof.
  intros Hne. destruct (matrix_get_set m j i v j' i') as [H|(-> & -> & _)]; [done|].
  by destruct Hne.
Qed.

Lemma cells_untouched_initially (len1 len2 : nat) :
  let m0 := replicate (len2 + 1) (replicate (len1 + 1) 0) in
  let m1 := foldl (λ m i, matrix_set m 0 i i) m0 (seq 0 (len1 + 1)) in
  let m2 := foldl (λ m j, matrix_set m j 0 j) m1 (seq 0 (len2 + 1)) in
  ∀ j' i', 1 ≤ j' → 1 ≤ i' → matrix_get m2 j' i' = 0.
Proof.
  intros m0 m1 m2. subst m0 m1 m2.
  set (P := λ m : list (list nat), ∀ j' i', 1 ≤ j' → 1 ≤ i' → matrix_get m j' i' = 0).
  apply (foldl_invariant P (λ _, True)); [| by apply Forall_true |].
  - apply (foldl_invariant P (λ _, True)); [| by apply Forall_true |].
    + intros j' i' _ _. pose proof (cells_bounded_zero (len2 + 1) (len1 + 1) j' i') as H.
      unfold matrix_get in *.
      destruct (replicate (len2 + 1) (replicate (len1 + 1) 0) !! j') as [row|] eqn:Hrow;
        simpl in *; [|done].
      apply lookup_replicate in Hrow as [-> _].
      destruct (replicate (len1 + 1) 0 !! i') as [x|] eqn:Hx; simpl; [|done].
      by apply lookup_replicate in Hx as [-> _].
    + intros m i Hm _ j' i' Hj Hi.
      rewrite matrix_get_set_other by lia. by apply Hm.
  - intros m j Hm _ j' i' Hj Hi.
    rewrite matrix_get_set_other by lia. by apply Hm.
Qed.

Lemma lev_row_small (str1 str2 : string) (len1 j : nat) (m : list (list nat)) :
  1 ≤ j →
  cells_small m ∧ cells_untouched m j 1 →
  cells_small (lev_row str1 str2 len1 m j)
  ∧ cells_untouched (lev_row str1 str2 len1 m j) (S j) 1.
Proof.
  intros Hj Hm. unfold lev_row.
  cut (cells_small (foldl (lev_cell str1 str2 j) m (seq 1 len1))
       ∧ cells_untouched (foldl (lev_cell str1 str2 j) m (seq 1 len1)) j (1 + len1)).
  { intros [Hs Hu]. split; [done|].
    intros j' i' Hj' Hi' Hlater. apply Hu; [done..|]. left. lia. }
  apply (foldl_seq_invariant (λ i m, cells_small m ∧ cells_untouched m j i));
    [done|].
  intros i m' Hi [Hs Hu]. unfold lev_cell.
  assert (Hold : matrix_get m' j i = 0) by (apply Hu; [lia..|right; lia]).
  rewrite Hold. split.
  - intros j' i' Hj' Hi'.
    destruct (matrix_get_set m' j i
                (Nat.min (matrix_get m' j (i - 1) + 1)
                   (Nat.min (0 + 1)
                      (matrix_get m' (j - 1) (i - 1) + indicator str1 str2 i j)))
                j' i') as [->|(_ & _ & ->)]; [by apply Hs|lia].
  - intros j' i' Hj' Hi' Hlater.
    rewrite matrix_get_set_other by lia. apply Hu; [done..|]. lia.
Qed.

Lemma levenshteinDistance_le_one (str1 str2 : string) :
  str1 ≠ "" → str2 ≠ "" → levenshteinDistance str1 str2 ≤ 1.
Proof.
  intros H1 H2. unfold levenshteinDistance.
  assert (Hlen1 : 1 ≤ String.length str1) by (destruct str1; [done|simpl; lia]).
  assert (Hlen2 : 1 ≤ String.length str2) by (destruct str2; [done|simpl; lia]).
  match goal with |- matrix_get ?m _ _ ≤ _ => cut (cells_small m) end.
  { intros H. by apply H. }
  pose proof (cells_untouched_initially (String.length str1) (String.length str2))
    as Hinit. simpl in Hinit.
  match goal with
  | |- cells_small (foldl ?f ?m0 (seq 1 ?n)) =>
      cut (cells_small (foldl f m0 (seq 1 n))
           ∧ cells_untouched (foldl f m0 (seq 1 n)) (1 + n) 1)
  end.
  { by intros [? _]. }
  apply (foldl_seq_invariant (λ j m, cells_small m ∧ cells_untouched m j 1)).
  - split.
    + intros j' i' Hj' Hi'. rewrite Hinit by done. lia.
    + intros j' i' Hj' Hi' _. by apply Hinit.
  - intros j m Hj Hm. apply lev_row_small; [lia|done].
Qed.

Example levenshtein_kitten_sitting :
  levenshteinDistance "kitten" "sitting" = 1
  ∧ levenshteinDistance "" "sitting" = 7
  ∧ levenshteinDistance "kitten" "kitten" = 0.
Proof. repeat split. Qed.

Lemma fuzzyMatchScore_long (guess answer : string) :
  guess ≠ "" → answer ≠ "" →
  20 ≤ Nat.max (String.length guess) (String.length answer) →
  geb (fuzzyMatchScore guess answer) q_095 = true.
Proof.
  intros Hg Ha Hlong. unfold fuzzyMatchScore.
  pose proof (levenshteinDistance_le_one guess answer Hg Ha) as Hd.
  set (maxLen := Nat.max (String.length guess) (String.length answer)) in *.
  set (distance := levenshteinDistance guess answer) in *.
  case_decide as Hz; [lia|].
  destruct maxLen as [|n] eqn:Hmax; [done|]. simpl.
  apply Qle_bool_iff. unfold Qle, Qminus, Qplus, Qopp. simpl.
  rewrite Pos.mul_1_l.
  assert (Hpos : Z.pos (Pos.of_nat (S n)) = Z.of_nat (S n)).
  { rewrite <- positive_nat_Z, Nat2Pos.id; done. }
  rewrite Hpos. lia.
Qed.

(** The fuzzy stage therefore accepts every guess that the earlier stages
    did not settle, as soon as the guess or the answer has twenty
    characters: with an answer of that length no guess is rejected. *)
Theorem long_answer_accepts_any_guess :
  ∀ (judge : option JudgeReply) (userGuess correctAnswer imageDescription : string),
    trim (toLowerCase userGuess) ≠ "" →
    trim (toLowerCase correctAnswer) ≠ "" →
    20 ≤ Nat.max (String.length (trim (toLowerCase userGuess)))
                 (String.length (trim (toLowerCase correctAnswer))) →
    isValid (validateAnswerAdvanced judge userGuess correctAnswer imageDescription)
    = true.
Proof.
  intros judge g a d Hg Ha Hlong. unfold validateAnswerAdvanced.
  case_decide; [done|]. case_decide; [done|].
  destruct (_ && geb _ q_070); [done|].
  by rewrite (fuzzyMatchScore_long _ _ Hg Ha Hlong).
Qed.

Lemma long_answer_accepts_any_guess_witness :
  validateAnswerAdvanced None "cat" "a white lighthouse on a cliff" ""
  = mkVerdict true (Fin (1 - (1 # 29))) "High fuzzy match score" FUZZY
  ∧ isValid (validateAnswerAdvanced None "cat" "a white lighthouse on a cliff" "")
    = true.
Proof.
  split; [reflexivity|].
  apply long_answer_accepts_any_guess.
  - vm_compute. discriminate.
  - vm_compute. discriminate.
  - vm_compute. repeat constructor.
Defined.

Lemma div_nat_unit (a b : nat) :
  a ≤ b → b ≠ 0 → ∃ q, div_nat a b = Fin q ∧ (0 <= q)%Q ∧ (q <= 1)%Q.
Proof.
  intros Hab Hb. destruct b as [|b]; [done|].
  exists (Z.of_nat a # Pos.of_nat (S b))%Q. split; [by destruct a|].
  unfold Qle; simpl. rewrite !Z.mul_1_r. split; [lia|].
  rewrite <- (Nat2Pos.id (S b)) in Hab by done.
  rewrite <- positive_nat_Z. lia.
Qed.

Lemma fuzzyMatchScore_unit (guess answer : string) :
  in_unit_interval (fuzzyMatchScore guess answer).
Proof.
  unfold fuzzyMatchScore. case_decide as Hmax; simpl.
  { split; unfold Qle; simpl; lia. }
  destruct (div_nat_unit _ _ (levenshteinDistance_bound guess answer) Hmax)
    as (q & -> & Hq0 & Hq1).
  simpl. split.
  - apply Qle_minus_iff in Hq1. exact Hq1.
  - apply Qle_minus_iff. ring_simplify. exact Hq0.
Qed.

Lemma jaccardSimilarity_unit (tokens1 tokens2 : list string) :
  tokens1 ≠ [] ∨ tokens2 ≠ [] →
  in_unit_interval (jaccardSimilarity tokens1 tokens2).
Proof.
  intros Hne. rewrite jaccard_sets.
  set (s1 := list_to_set tokens1 : gset string).
  set (s2 := list_to_set tokens2 : gset string).
  assert (Hle : size (s1 ∩ s2) ≤ size (s1 ∪ s2)).
  { apply subseteq_size. etrans; [apply intersection_subseteq_l|].
    apply union_subseteq_l. }
  assert (Hnz : size (s1 ∪ s2) ≠ 0).
  { intros Hz. apply size_empty_inv, leibniz_equiv, empty_union_L in Hz as [H1 H2].
    apply list_to_set_empty_inv in H1, H2. by destruct Hne. }
  destruct (div_nat_unit _ _ Hle Hnz) as (q & -> & Hq). exact Hq.
Qed.

Lemma max_unit (x y : number) :
  in_unit_interval x → in_unit_interval y → in_unit_interval (JsNumber.max x y).
Proof.
  destruct x as [p| | |], y as [q| | |]; simpl; try tauto.
  intros Hp Hq. by destruct (Qle_bool q p).
Qed.

(** When the guess or the answer has a token, and with a judge whose
    confidence, if its reply has one, is at most [1], the confidence of
    every verdict lies between [0] and [1]: also when the request to the
    judge fails and when its reply has no confidence. *)
Theorem confidence_in_unit_interval :
  ∀ (judge : option JudgeReply) (userGuess correctAnswer imageDescription : string),
    judge_within_one judge →
    tokenizeAndNormalize (trim (toLowerCase userGuess)) ≠ []
    ∨ tokenizeAndNormalize (trim (toLowerCase correctAnswer)) ≠ [] →
    in_unit_interval
      (confidence (validateAnswerAdvanced judge userGuess correctAnswer imageDescription)).
Proof.
  intros judge g a d Hjudge Htok. unfold validateAnswerAdvanced.
  set (ng := trim (toLowerCase g)) in *. set (na := trim (toLowerCase a)) in *.
  assert (Hrej : in_unit_interval
            (JsNumber.max (fuzzyMatchScore ng na)
               (jaccardSimilarity (tokenizeAndNormalize ng) (tokenizeAndNormalize na)))).
  { apply max_unit; [apply fuzzyMatchScore_unit | by apply jaccardSimilarity_unit]. }
  case_decide as Hempty; [simpl; split; unfold Qle; simpl; lia|].
  case_decide as Hexact; [simpl; split; unfold Qle; simpl; lia|].
  destruct (_ && geb _ q_070) eqn:Hsub; simpl.
  { assert (Hlen : Nat.max (String.length ng) (String.length na) ≠ 0).
    { destruct ng; [done|simpl; lia]. }
    destruct (div_nat_unit (Nat.min (String.length ng) (String.length na))
                (Nat.max (String.length ng) (String.length na)))
      as (q & -> & Hq); [lia|done|exact Hq]. }
  destruct (geb (fuzzyMatchScore ng na) q_095) eqn:Hfuzzy; simpl.
  { apply fuzzyMatchScore_unit. }
  destruct (_ && geb _ q_060) eqn:Hjac; simpl.
  { by apply jaccardSimilarity_unit. }
  destruct judge as [result|]; [|exact Hrej].
  destruct (_ && geb _ q_085) eqn:Hacc; simpl; [|exact Hrej].
  apply andb_prop in Hacc as [_ Hacc]. simpl in Hjudge.
  unfold or_else in *.
  destruct (j_confidence result) as [q| | |]; simpl in *; try done.
  destruct (Qeq_bool q 0) eqn:Hq0; simpl in *; [done|].
  apply Qle_bool_iff in Hacc. split; [|done].
  eapply Qle_trans; [|exact Hacc]. unfold Qle; simpl; lia.
Qed.

Lemma confidence_in_unit_interval_witness :
  in_unit_interval
    (confidence (validateAnswerAdvanced (Some (mkJudgeReply true (Fin (9 # 10)) ""))
                   "a beacon" "lighthouse" "a white tower by the sea"))
  ∧ in_unit_interval
      (confidence (validateAnswerAdvanced (Some (mkJudgeReply true NaN ""))
                     "a beacon" "lighthouse" "a white tower by the sea")).
Proof.
  split; apply confidence_in_unit_interval.
  - vm_compute. discriminate.
  - left. vm_compute. discriminate.
  - exact I.
  - left. vm_compute. discriminate.
Defined.

(** ** White space *)

Lemma lower_char_space (c : ascii) : is_space (lower_char c) = is_space c.
Proof. destruct c as [[] [] [] [] [] [] [] []]; reflexivity. Qed.

Lemma trimEnd_head (c : ascii) (r : string) :
  is_space c = false → trimEnd (String c r) ≠ "".
Proof. intros Hc. simpl. destruct (trimEnd r); [by rewrite Hc|done]. Qed.

Lemma trim_empty_trimStart (s : string) : trim s = "" → trimStart s = "".
Proof.
  unfold trim. induction s as [|c r IH]; simpl; [done|].
  destruct (is_space c) eqn:Hc; [exact IH|].
  intros H. by apply trimEnd_head in H.
Qed.

(** A guess made of white space only is still so once lower-cased. *)
Lemma trim_toLowerCase_empty (s : string) :
  trim s = "" → trim (toLowerCase s) = "".
Proof.
  intros H%trim_empty_trimStart. unfold trim.
  cut (trimStart (toLowerCase s) = ""); [by intros ->|].
  induction s as [|c r IH]; simpl in *; [done|].
  rewrite lower_char_space. destruct (is_space c); [by apply IH|done].
Qed.

(** A string is blank when it holds white space only: that is when
    trimming leaves nothing of it, lower-cased or not. *)
Lemma trimStart_blank (s : string) :
  trimStart s = "" ↔ string_forall is_space s = true.
Proof.
  induction s as [|c r IH]; simpl; [done|].
  destruct (is_space c); simpl; [exact IH|]. split; done.
Qed.

Lemma trim_blank (s : string) : trim s = "" ↔ string_forall is_space s = true.
Proof.
  rewrite <- trimStart_blank. split; [apply trim_empty_trimStart|].
  unfold trim. by intros ->.
Qed.

Lemma toLowerCase_blank (s : string) :
  string_forall is_space (toLowerCase s) = string_forall is_space s.
Proof.
  unfold toLowerCase.
  induction s as [|c r IH]; simpl; [done|]. by rewrite lower_char_space, IH.
Qed.

(** ** A guess that is the answer *)

(** C5 (as it holds): a string that is not empty once lower-cased and
    trimmed matches itself exactly, with confidence [1], whatever the
    description and the judge; an empty string and a string of white space
    only, which are the strings that are empty once lower-cased and trimmed,
    are rejected as [EMPTY] with confidence [0], the judge not being
    consulted. *)
Theorem non_empty_guess_matches_itself :
  ∀ (judge : option JudgeReply) (s imageDescription : string),
    let v := validateAnswerAdvanced judge s s imageDescription in
    (trim (toLowerCase s) ≠ "" → v = mkVerdict true (Fin 1) "Exact match" EXACT)
    ∧ (trim (toLowerCase s) = "" ↔ string_forall is_space s = true)
    ∧ (string_forall is_space s = true →
       v = mkVerdict false (Fin 0) "Empty guess" EMPTY
       ∧ isValid v = false ∧ strategy v = EMPTY ∧ confidence v = Fin 0).
Proof.
  intros judge s d v. subst v.
  assert (Hblank : trim (toLowerCase s) = "" ↔ string_forall is_space s = true).
  { by rewrite trim_blank, toLowerCase_blank. }
  split_and!; [|exact Hblank|].
  - intros Hne. unfold validateAnswerAdvanced. repeat case_decide; done.
  - intros Hs%Hblank. unfold validateAnswerAdvanced. rewrite Hs.
    case_decide; done.
Qed.

Lemma non_empty_guess_matches_itself_witness :
  (trim (toLowerCase "Sunset") ≠ ""
   ∧ validateAnswerAdvanced None "Sunset" "Sunset" "an orange sky"
     = mkVerdict true (Fin 1) "Exact match" EXACT)
  ∧ (string_forall is_space "   " = true
     ∧ validateAnswerAdvanced None "   " "   " "an orange sky"
       = mkVerdict false (Fin 0) "Empty guess" EMPTY).
Proof.
  split; (split; [vm_compute; done|]).
  - apply (proj1 (non_empty_guess_matches_itself None "Sunset" "an orange sky")).
    vm_compute. discriminate.
  - apply (proj2 (proj2 (non_empty_guess_matches_itself None "   " "an orange sky"))).
    reflexivity.
Defined.

(** C5 (as stated) fails on the empty string and on white space: the guard
    for empty guesses comes before the exact comparison. *)
Lemma empty_string_does_not_match_itself :
  ¬ (∀ (s imageDescription : string),
       strategy (validateAnswerAdvanced None s s imageDescription) = EXACT
       ∧ confidence (validateAnswerAdvanced None s s imageDescription) = Fin 1).
Proof. intros H. destruct (H "" "") as [H1 _]. vm_compute in H1. discriminate. Qed.

(** ** One guess *)

Section GuessFacts.
Variable toUpperCase : string → string.

Abbreviation handleGuess' := (handleGuess toUpperCase).
Abbreviation handleGuess_actions' := (handleGuess_actions toUpperCase).
Abbreviation on_game_over' := (on_game_over toUpperCase).

Lemma handleGuess_blocked env s :
  guess_blocked s = true → handleGuess' env s = s.
Proof. unfold handleGuess. by intros ->. Qed.

Lemma handleGuess_actions_rejected env s :
  isValid (validation env s) = false →
  handleGuess_actions' env s
  = on_submit ++ wrong_guess_updates s
    ++ (if decide (MAX_ATTEMPTS ≤ attempts s + 1)%Z
        then on_game_over' s ++ [ SET_GUESS "" ]
        else [ SET_HINT "> Analyzing your guess..." ] ++ after_hints env s).
Proof.
  intros Hv. unfold handleGuess_actions, after_validation. rewrite Hv.
  case_decide; simpl; reflexivity.
Qed.

Lemma handleGuess_actions_accepted env s :
  isValid (validation env s) = true →
  handleGuess_actions' env s
  = on_submit ++ on_correct (validation env s) s ++ [ SET_GUESS "" ].
Proof.
  intros Hv. unfold handleGuess_actions, after_validation. rewrite Hv.
  by rewrite app_nil_r.
Qed.

(** The state left by a rejected guess. *)
Lemma handleGuess_rejected env s :
  guess_blocked s = false →
  isValid (validation env s) = false →
  let s' := handleGuess' env s in
  attempts s' = (attempts s + 1)%Z
  ∧ highScore s' = highScore s
  ∧ loading s' = false
  ∧ ((attempts s + 1 < MAX_ATTEMPTS)%Z →
       score s' = Z.max 0 (score s - SCORE_DECREMENT)
       ∧ blur s' = Z.max 0 (blur s - BLUR_DECREMENT)
       ∧ revealed s' = false
       ∧ hintLevel s' = Z.min (hintLevel s + 1) 4
       ∧ previousHints s' = previousHints s ++ [ hint s ])
  ∧ ((MAX_ATTEMPTS ≤ attempts s + 1)%Z →
       score s' = 0%Z ∧ blur s' = 0%Z ∧ revealed s' = true
       ∧ hintLevel s' = hintLevel s
       ∧ previousHints s' = previousHints s).
Proof.
  intros Hactive Hv. unfold handleGuess. rewrite Hactive.
  rewrite (handleGuess_actions_rejected _ _ Hv).
  apply orb_false_elim in Hactive as [Hrev Hload].
  case_decide as Hmax; simpl; repeat split; try done; intros; try lia; done.
Qed.

(** The state left by an accepted guess. *)
Lemma handleGuess_accepted env s :
  guess_blocked s = false →
  isValid (validation env s) = true →
  let s' := handleGuess' env s in
  revealed s' = true ∧ blur s' = 0%Z ∧ score s' = score s
  ∧ attempts s' = attempts s ∧ hintLevel s' = hintLevel s
  ∧ previousHints s' = previousHints s ∧ loading s' = false
  ∧ highScore s' = Z.max (highScore s) (score s).
Proof.
  intros Hactive Hv. unfold handleGuess. rewrite Hactive.
  rewrite (handleGuess_actions_accepted _ _ Hv).
  apply orb_false_elim in Hactive as [Hrev Hload].
  unfold on_correct. case_decide; simpl; repeat split; try done; lia.
Qed.

(** C1 (as it holds): an empty or white-space guess is not ignored.  The
    validator rejects it without consulting the judge, and the handler, which
    has no test of its own on the guess, counts it as a wrong guess: one more
    attempt, and the penalties or the end of the round that go with it.  The
    handler leaves the state as it is only when the round is revealed or
    loading. *)
Theorem empty_guess_is_a_wrong_guess :
  ∀ (env : GuessEnv) (s : State),
    guess_blocked s = false →
    trim (guess s) = "" →
    let s' := handleGuess' env s in
    validation env s = mkVerdict false (Fin 0) "Empty guess" EMPTY
    ∧ attempts s' = (attempts s + 1)%Z
    ∧ ((attempts s + 1 < MAX_ATTEMPTS)%Z →
         score s' = Z.max 0 (score s - SCORE_DECREMENT)
         ∧ blur s' = Z.max 0 (blur s - BLUR_DECREMENT)
         ∧ revealed s' = false
         ∧ hintLevel s' = Z.min (hintLevel s + 1) 4
         ∧ previousHints s' = previousHints s ++ [ hint s ])
    ∧ ((MAX_ATTEMPTS ≤ attempts s + 1)%Z →
         score s' = 0%Z ∧ blur s' = 0%Z ∧ revealed s' = true).
Proof.
  intros env s Hactive Hempty s'.
  assert (Hv : validation env s = mkVerdict false (Fin 0) "Empty guess" EMPTY).
  { unfold validation, validateAnswerAdvanced.
    rewrite (trim_toLowerCase_empty _ Hempty). by case_decide. }
  split; [exact Hv|].
  destruct (handleGuess_rejected env s Hactive) as (Ha & _ & _ & Hlt & Hge).
  { by rewrite Hv. }
  split; [exact Ha|]. split; [exact Hlt|].
  intros H. destruct (Hge H) as (? & ? & ? & _). done.
Qed.

End GuessFacts.

(** ** A round played in sequence *)

Section RoundFacts.
Variable toUpperCase : string → string.

Abbreviation play' := (play toUpperCase).
Abbreviation move_step' := (move_step toUpperCase).

Lemma round_invariant_start (lenv : LoadEnv) (before : State) :
  round_invariant (loadNewImage lenv before, false).
Proof.
  unfold round_invariant, loadNewImage, MAX_ATTEMPTS.
  destruct (imageData lenv) as [[url d]|]; simpl; split_and!; try done;
    (split; [done | intros [?|?]; done]).
Qed.

Lemma round_invariant_step (st : State * bool) (m : Move) :
  round_invariant st →
  round_invariant (move_step' st m)
  ∧ (score (move_step' st m).1 ≤ score st.1)%Z
  ∧ (blur (move_step' st m).1 ≤ blur st.1)%Z.
Proof.
  destruct st as [s acc]. unfold round_invariant, MAX_ATTEMPTS. simpl.
  intros (Hscore & Hblur & Hhint & Hatt & Hload & Hrev).
  destruct m as [v|env]; simpl; [split_and!; try done; lia|].
  unfold guess_accepted.
  destruct (guess_blocked s) eqn:Hactive; simpl.
  { rewrite (handleGuess_blocked _ _ _ Hactive), orb_false_r.
    split_and!; try done; lia. }
  assert (Hnot : revealed s = false) by (by apply orb_false_elim in Hactive as [? ?]).
  assert (Hacc : acc = false).
  { destruct acc; [|done]. rewrite <- Hnot. symmetry. apply Hrev. by right. }
  assert (Hlt : (attempts s < 5)%Z).
  { destruct (decide (attempts s = 5%Z)) as [Heq|]; [|lia].
    exfalso. rewrite (proj2 Hrev (or_introl Heq)) in Hnot. done. }
  subst acc. simpl.
  destruct (isValid (validation env s)) eqn:Hv.
  - destruct (handleGuess_accepted toUpperCase env s Hactive Hv)
      as (-> & -> & -> & -> & -> & _ & -> & _).
    split_and!; first [done | lia | naive_solver lia].
  - destruct (handleGuess_rejected toUpperCase env s Hactive Hv)
      as (-> & _ & -> & Hcont & Hover).
    unfold MAX_ATTEMPTS, SCORE_DECREMENT, BLUR_DECREMENT in *.
    destruct (decide (attempts s + 1 < 5)%Z) as [Hin|Hout].
    + destruct (Hcont Hin) as (-> & -> & -> & -> & _).
      split_and!; first [done | lia | naive_solver lia].
    + destruct Hover as (-> & -> & -> & -> & _); [lia|].
      split_and!; first [done | lia | naive_solver lia].
Qed.

Lemma round_invariant_run (moves : list Move) (st : State * bool) :
  round_invariant st →
  round_invariant (foldl move_step' st moves)
  ∧ (score (foldl move_step' st moves).1 ≤ score st.1)%Z
  ∧ (blur (foldl move_step' st moves).1 ≤ blur st.1)%Z.
Proof.
  revert st. induction moves as [|m moves IH]; intros st Hst; simpl.
  { split_and!; [done|lia|lia]. }
  destruct (round_invariant_step st m Hst) as (Hnext & Hs & Hb).
  destruct (IH _ Hnext) as (? & ? & ?). split_and!; [done|lia|lia].
Qed.

(** The record of the round is set exactly when one of the submitted
    guesses was validated while the round accepted guesses. *)
Lemma accepted_record (moves : list Move) (s : State) :
  (play' moves s).2 = true
  ↔ ∃ before env after,
      moves = before ++ SubmitGuess env :: after
      ∧ guess_accepted env (play' before s).1 = true.
Proof.
  unfold play. induction moves as [|m moves IH] using rev_ind; simpl.
  { split; [done|]. intros (before & env & after & H & _). by destruct before. }
  rewrite foldl_snoc. split.
  - intros H. destruct m as [v|env]; simpl in H.
    + apply IH in H as (before & env & after & -> & Hacc).
      exists before, env, (after ++ [TypeGuess v]). by rewrite <- app_assoc.
    + apply orb_true_iff in H as [H|H].
      * apply IH in H as (before & env' & after & -> & Hacc).
        exists before, env', (after ++ [SubmitGuess env]). by rewrite <- app_assoc.
      * exists moves, env, []. done.
  - intros (before & env & after & Heq & Hacc).
    destruct after as [|a after _] using rev_ind.
    + apply app_inj_tail in Heq as [-> ->]. simpl. rewrite Hacc. apply orb_true_r.
    + rewrite app_comm_cons, app_assoc in Heq. apply app_inj_tail in Heq as [-> ->].
      assert (Hprev : (foldl move_step' (s, false)
                         (before ++ SubmitGuess env :: after)).2 = true).
      { apply IH. eauto. }
      destruct a; simpl; rewrite Hprev; done.
Qed.

End RoundFacts.

(** ** Guesses submitted while another one is being evaluated *)

Lemma round_action_revealed (a : Action) (s : State) :
  round_action a = true → revealed s = true → revealed (gameReducer s a) = true.
Proof. destruct a; simpl; intros ? ?; done. Qed.

Lemma round_actions_revealed (acts : list Action) (s : State) :
  forallb round_action acts = true →
  revealed s = true → revealed (dispatch_all acts s) = true.
Proof.
  revert s. induction acts as [|a acts IH]; intros s H Hs; simpl in *; [done|].
  apply andb_prop in H as [Ha Hacts].
  apply IH; [done|]. by apply round_action_revealed.
Qed.

Section SessionFacts.
Variable toUpperCase : string → string.

Abbreviation session_step' := (session_step toUpperCase).
Abbreviation session_run' := (session_run toUpperCase).
Abbreviation after_validation' := (after_validation toUpperCase).

(** A handler that nothing interrupts is [handleGuess]: it is submitted,
    resumed once the validation has resolved and, if it awaits the hints,
    resumed once more. *)
Lemma session_sequential (env : GuessEnv) (s : State) :
  session_run' [ Submitted env; Resumed 0; Resumed 0 ] (mkSession s [])
  = mkSession (handleGuess toUpperCase env s) [].
Proof.
  unfold session_run, handleGuess, handleGuess_actions. simpl.
  destruct (guess_blocked s); simpl; [done|].
  destruct (after_validation' env s) as [acts hints].
  destruct hints; simpl.
  - unfold dispatch_all. by rewrite foldl_app.
  - unfold dispatch_all. by rewrite app_nil_r.
Qed.

Lemma session_step_revealed (ss : Session) (e : Event) :
  revealed (store ss) = true → revealed (store (session_step' ss e)) = true.
Proof.
  intros Hrev.
  destruct e as [v|env|k]; cbn -[dispatch_all after_hints]; [done| |].
  - by destruct (guess_blocked (store ss)).
  - destruct (inflight ss !! k) as [p|]; [|done].
    destruct (stage p).
    + pose proof (after_validation_round_actions toUpperCase (env_of p) (closure p)) as H.
      destruct (after_validation' (env_of p) (closure p)) as [acts hints].
      by apply round_actions_revealed.
    + by apply round_actions_revealed.
Qed.

Lemma session_run_revealed (events : list Event) (ss : Session) :
  revealed (store ss) = true → revealed (store (session_run' events ss)) = true.
Proof.
  revert ss. unfold session_run.
  induction events as [|e events IH]; intros ss Hrev; simpl; [done|].
  by apply IH, session_step_revealed.
Qed.

(** C8 (as it holds): [handleGuess] keeps no record of an evaluation in
    progress.  A submission is dropped when the round is revealed or loading
    as it is made, and only then: otherwise it is evaluated as well, whatever
    is pending.  Every pending evaluation that resolves to a rejection adds
    one attempt to the round as it stands then.  No event, however late,
    makes a revealed round unrevealed. *)
Theorem submissions_are_not_single_flight :
  (∀ (ss : Session) (env : GuessEnv),
     guess_blocked (store ss) = true →
     session_step' ss (Submitted env) = ss)
  ∧ (∀ (ss : Session) (env : GuessEnv),
       guess_blocked (store ss) = false →
       inflight (session_step' ss (Submitted env))
       = inflight ss ++ [ mkPending (store ss) env AwaitValidation ])
  ∧ (∀ (ss : Session) (k : nat) (p : Pending),
       inflight ss !! k = Some p →
       stage p = AwaitValidation →
       isValid (validation (env_of p) (closure p)) = false →
       attempts (store (session_step' ss (Resumed k)))
       = (attempts (store ss) + 1)%Z)
  ∧ (∀ (events : list Event) (ss : Session),
       revealed (store ss) = true →
       revealed (store (session_run' events ss)) = true).
Proof.
  split_and!.
  - intros ss env Hblocked. simpl. by rewrite Hblocked.
  - intros ss env Hactive. simpl. by rewrite Hactive.
  - intros ss k p Hk Hstage Hv. simpl. rewrite Hk, Hstage.
    unfold after_validation. rewrite Hv.
    case_decide; reflexivity.
  - apply session_run_revealed.
Qed.

End SessionFacts.

(** ** Concrete rounds *)

Lemma empty_guess_is_a_wrong_guess_witness :
  let s := handleGuessChange "   " lighthouse_round in
  guess_blocked s = false
  ∧ trim (guess s) = ""
  ∧ attempts (handleGuess toUpperCase_ascii no_help s) = 1%Z.
Proof.
  split; [reflexivity|]. split; [reflexivity|].
  exact (proj1 (proj2 (empty_guess_is_a_wrong_guess toUpperCase_ascii no_help
                         (handleGuessChange "   " lighthouse_round)
                         eq_refl eq_refl))).
Defined.

(** C1 (as stated) fails: in the round that has just been loaded, a guess
    of three spaces costs an attempt, fifteen points, four units of blur and
    a hint. *)
Lemma empty_guess_is_not_ignored :
  ¬ (∀ (env : GuessEnv) (s : State),
       guess_blocked s = false →
       trim (guess s) = "" →
       let s' := handleGuess toUpperCase_ascii env s in
       attempts s' = attempts s ∧ score s' = score s ∧ blur s' = blur s
       ∧ hintLevel s' = hintLevel s ∧ previousHints s' = previousHints s
       ∧ revealed s' = revealed s).
Proof.
  intros H.
  destruct (H no_help (handleGuessChange "   " lighthouse_round) eq_refl eq_refl)
    as [Hattempts _].
  vm_compute in Hattempts. discriminate.
Qed.

Lemma submissions_are_not_single_flight_witness :
  guess_blocked (store one_pending) = false
  ∧ inflight one_pending
    = [ mkPending (handleGuessChange "cat" lighthouse_round) no_help AwaitValidation ]
  ∧ length (inflight (session_step toUpperCase_ascii one_pending (Submitted no_help))) = 2
  ∧ attempts (store (session_step toUpperCase_ascii one_pending (Resumed 0))) = 1%Z
  ∧ session_step toUpperCase_ascii (mkSession initialState []) (Submitted no_help)
    = mkSession initialState [].
Proof.
  destruct (submissions_are_not_single_flight toUpperCase_ascii)
    as (Hblocked & Hactive & Hresumed & _).
  split; [reflexivity|]. split; [reflexivity|]. split; [|split].
  - rewrite (Hactive one_pending no_help eq_refl). reflexivity.
  - exact (Hresumed one_pending 0
             (mkPending (handleGuessChange "cat" lighthouse_round) no_help AwaitValidation)
             eq_refl eq_refl eq_refl).
  - exact (Hblocked (mkSession initialState []) no_help eq_refl).
Defined.

(** C8 (as stated) fails: a guess submitted while another is being
    evaluated is taken in, and when the fifth and a sixth wrong guess are
    evaluated together the round ends with six attempts out of five. *)
Lemma racing_guesses_exceed_max_attempts :
  inflight one_pending ≠ []
  ∧ session_step toUpperCase_ascii one_pending (Submitted no_help) ≠ one_pending
  ∧ attempts (store (session_run toUpperCase_ascii racing_guesses
                       (mkSession lighthouse_round []))) = 6%Z
  ∧ (MAX_ATTEMPTS
     < attempts (store (session_run toUpperCase_ascii racing_guesses
                          (mkSession lighthouse_round []))))%Z.
Proof. split_and!; [done | | reflexivity | reflexivity]. intros H. inversion H. Qed.

(** * Further properties of the code *)

(** ** The match engine, continued *)

Lemma lower_char_idem (c : ascii) : lower_char (lower_char c) = lower_char c.
Proof. destruct c as [[] [] [] [] [] [] [] []]; reflexivity. Qed.

Lemma toLowerCase_idem (s : string) : toLowerCase (toLowerCase s) = toLowerCase s.
Proof.
  unfold toLowerCase. induction s as [|c r IH]; simpl; [done|].
  by rewrite lower_char_idem, IH.
Qed.

Lemma toLowerCase_empty (s : string) : toLowerCase s = "" ↔ s = "".
Proof. destruct s; simpl; split; intros H; done. Qed.

Lemma toLowerCase_trimStart (s : string) :
  toLowerCase (trimStart s) = trimStart (toLowerCase s).
Proof.
  induction s as [|c r IH]; simpl; [done|].
  rewrite lower_char_space. by destruct (is_space c).
Qed.

Lemma toLowerCase_trimEnd (s : string) :
  toLowerCase (trimEnd s) = trimEnd (toLowerCase s).
Proof.
  induction s as [|c r IH]; simpl; [done|].
  fold (toLowerCase r). rewrite <- IH, lower_char_space.
  destruct (trimEnd r) as [|c' r']; simpl; [by destruct (is_space c)|done].
Qed.

Lemma toLowerCase_trim (s : string) : toLowerCase (trim s) = trim (toLowerCase s).
Proof. unfold trim. by rewrite toLowerCase_trimEnd, toLowerCase_trimStart. Qed.

Lemma trimStart_idem (s : string) : trimStart (trimStart s) = trimStart s.
Proof.
  induction s as [|c r IH]; simpl; [done|].
  destruct (is_space c) eqn:Hc; [done|]. simpl. by rewrite Hc.
Qed.

Lemma trimEnd_idem (s : string) : trimEnd (trimEnd s) = trimEnd s.
Proof.
  induction s as [|c r IH]; simpl; [done|].
  destruct (trimEnd r) as [|c' r'] eqn:Hr.
  - destruct (is_space c) eqn:Hc; simpl; [done|]. by rewrite Hc.
  - simpl in *. by rewrite IH.
Qed.

Lemma trimStart_trimEnd (s : string) : trimStart (trimEnd s) = trimEnd (trimStart s).
Proof.
  induction s as [|c r IH]; simpl; [done|].
  destruct (is_space c) eqn:Hc.
  - rewrite <- IH. destruct (trimEnd r) as [|c' r']; simpl; [done|]. by rewrite Hc.
  - simpl. destruct (trimEnd r) as [|c' r']; simpl; by rewrite Hc.
Qed.

Lemma trim_idem (s : string) : trim (trim s) = trim s.
Proof.
  unfold trim. by rewrite trimStart_trimEnd, trimStart_idem, trimEnd_idem.
Qed.

(** The verdict looks at the guess and at the answer through their
    lower-cased, trimmed forms only: changing the case of either, or
    trimming either beforehand, leaves the verdict as it is. *)
Theorem verdict_ignores_case_and_padding :
  ∀ (judge : option JudgeReply) (userGuess correctAnswer imageDescription : string),
    let v := validateAnswerAdvanced judge userGuess correctAnswer imageDescription in
    validateAnswerAdvanced judge (toLowerCase userGuess) correctAnswer imageDescription = v
    ∧ validateAnswerAdvanced judge (trim userGuess) correctAnswer imageDescription = v
    ∧ validateAnswerAdvanced judge userGuess (toLowerCase correctAnswer) imageDescription = v
    ∧ validateAnswerAdvanced judge userGuess (trim correctAnswer) imageDescription = v.
Proof.
  intros judge g a d v. subst v. unfold validateAnswerAdvanced.
  rewrite !toLowerCase_idem, !toLowerCase_trim, !trim_idem. done.
Qed.

Lemma geb_weaken (x : number) (p q : Q) :
  geb x (Fin p) = true → (q <= p)%Q → geb x (Fin q) = true.
Proof.
  destruct x as [r| | |]; simpl; try done.
  intros Hp%Qle_bool_iff Hq. apply Qle_bool_iff. by eapply Qle_trans.
Qed.

(** What each strategy vouches for: a verdict is valid unless its strategy
    is [EMPTY] or [REJECTED], and a valid verdict carries the confidence
    that its stage demands, at least [0.7] in every case. *)
Theorem accepted_verdict_meets_its_threshold :
  ∀ (judge : option JudgeReply) (userGuess correctAnswer imageDescription : string),
    let v := validateAnswerAdvanced judge userGuess correctAnswer imageDescription in
    match strategy v with
    | EMPTY => isValid v = false ∧ confidence v = Fin 0
    | REJECTED => isValid v = false
    | EXACT => isValid v = true ∧ confidence v = Fin 1
    | SUBSTRING => isValid v = true ∧ geb (confidence v) q_070 = true
    | FUZZY | JACCARD => isValid v = true ∧ geb (confidence v) q_095 = true
    | GEMINI_SEMANTIC => isValid v = true ∧ geb (confidence v) q_085 = true
    end
    ∧ (isValid v = true → geb (confidence v) q_070 = true).
Proof.
  intros judge g a d v. subst v. unfold validateAnswerAdvanced.
  case_decide; [done|]. case_decide; [done|].
  destruct (_ && geb _ q_070) eqn:Hsub; simpl.
  { apply andb_prop in Hsub as [_ Hsub]. done. }
  destruct (geb (fuzzyMatchScore _ _) q_095) eqn:Hfuzzy; simpl.
  { split; [done|]. intros _. eapply geb_weaken; [exact Hfuzzy|]. by vm_compute. }
  destruct (_ && geb _ q_060) eqn:Hjac; simpl.
  { apply andb_prop in Hjac as [Hjac _]. split; [done|]. intros _.
    eapply geb_weaken; [exact Hjac|]. by vm_compute. }
  destruct judge as [result|]; [|done].
  destruct (_ && geb _ q_085) eqn:Hacc; simpl; [|done].
  apply andb_prop in Hacc as [_ Hacc]. unfold or_else in *.
  destruct (truthy (j_confidence result)) eqn:Htruthy; [|done].
  split; [done|]. intros _. eapply geb_weaken; [exact Hacc|]. by vm_compute.
Qed.

(** The judge is the last resort.  When an earlier stage has settled the
    verdict (its strategy without the judge is not [REJECTED]), the reply of
    the judge is not looked at.  When every earlier stage has rejected, a
    reply that accepts with a confidence of at least [0.85] turns the
    verdict into an accepted one, [GEMINI_SEMANTIC], with the confidence and
    the reasoning of the judge (["Gemini validation"] when it gives none);
    any other reply, and a request that fails, leaves the rejection as it
    is.  The defaults [|| 0] and [|| 0.5] of the code never show. *)
Theorem judge_only_overturns_a_rejection :
  ∀ (judge : option JudgeReply) (userGuess correctAnswer imageDescription : string),
    let unaided := validateAnswerAdvanced None userGuess correctAnswer imageDescription in
    let v := validateAnswerAdvanced judge userGuess correctAnswer imageDescription in
    (strategy unaided ≠ REJECTED → v = unaided)
    ∧ (strategy unaided = REJECTED →
       match judge with
       | Some result =>
           if j_isValid result && geb (j_confidence result) q_085
           then v = mkVerdict true (j_confidence result)
                      (if decide (j_reasoning result = "") then "Gemini validation"
                       else j_reasoning result)
                      GEMINI_SEMANTIC
           else v = unaided
       | None => v = unaided
       end)
    ∧ (v = unaided
       ∨ (strategy unaided = REJECTED
          ∧ ∃ result, judge = Some result
              ∧ j_isValid result = true
              ∧ geb (j_confidence result) q_085 = true
              ∧ isValid v = true
              ∧ strategy v = GEMINI_SEMANTIC
              ∧ confidence v = j_confidence result)).
Proof.
  intros judge g a d unaided v. subst unaided v. unfold validateAnswerAdvanced.
  case_decide; [split_and!; first [done | by left]|].
  case_decide; [split_and!; first [done | by left]|].
  destruct (_ && geb _ q_070); [split_and!; first [done | by left]|].
  destruct (geb (fuzzyMatchScore _ _) q_095); [split_and!; first [done | by left]|].
  destruct (_ && geb _ q_060); [split_and!; first [done | by left]|].
  destruct judge as [result|]; [|split_and!; first [done | by left]].
  assert (Hsame : geb (or_else (j_confidence result) (Fin 0)) q_085
                  = geb (j_confidence result) q_085).
  { unfold or_else. destruct (j_confidence result) as [q| | |]; simpl; try done.
    destruct (Qeq_bool q 0) eqn:Hq; simpl; [|done].
    apply Qeq_bool_iff in Hq. symmetry. apply not_true_is_false.
    intros Hle%Qle_bool_iff. rewrite Hq in Hle. by vm_compute in Hle. }
  rewrite Hsame.
  destruct (_ && geb _ q_085) eqn:Hacc; [|split_and!; first [done | by left]].
  apply andb_prop in Hacc as [Hvalid Hacc].
  assert (Hconf : or_else (j_confidence result) q_050 = j_confidence result).
  { unfold or_else. destruct (truthy (j_confidence result)) eqn:Ht; [done|].
    destruct (j_confidence result) as [q| | |]; simpl in *; try done.
    apply negb_false_iff, Qeq_bool_iff in Ht.
    apply Qle_bool_iff in Hacc. rewrite Ht in Hacc. by vm_compute in Hacc. }
  rewrite Hconf. simpl.
  split_and!; [done|done|]. right. split; [done|]. by exists result.
Qed.

(** The Jaccard score is not a number exactly when neither list has a
    token.  As soon as one of them has, the union of the token sets is not
    empty and the score is the quotient of the size of their intersection by
    the size of their union, a rational between [0] and [1]. *)
Theorem jaccard_NaN_iff :
  ∀ tokens1 tokens2 : list string,
    let set1 : gset string := list_to_set tokens1 in
    let set2 : gset string := list_to_set tokens2 in
    (jaccardSimilarity tokens1 tokens2 = NaN ↔ tokens1 = [] ∧ tokens2 = [])
    ∧ (tokens1 ≠ [] ∨ tokens2 ≠ [] →
       size (set1 ∪ set2) ≠ 0
       ∧ jaccardSimilarity tokens1 tokens2
         = Fin (Z.of_nat (size (set1 ∩ set2)) # Pos.of_nat (size (set1 ∪ set2)))
       ∧ in_unit_interval (jaccardSimilarity tokens1 tokens2)).
Proof.
  intros tokens1 tokens2 set1 set2.
  split; [apply jaccard_NaN_without_tokens|].
  intros Hne.
  assert (Hnz : size (set1 ∪ set2) ≠ 0).
  { intros Hz. apply size_empty_inv, leibniz_equiv, empty_union_L in Hz as [H1 H2].
    apply list_to_set_empty_inv in H1, H2. by destruct Hne. }
  split_and!; [exact Hnz| |by apply jaccardSimilarity_unit].
  rewrite jaccard_sets. fold set1 set2.
  destruct (size (set1 ∪ set2)) as [|n]; [done|]. reflexivity.
Qed.

(** The Jaccard score does not depend on which list is the guess; it is [1]
    when the two lists hold the same tokens and [0] when they share none
    (one of them at least having a token). *)
Theorem jaccard_symmetric_and_extremes :
  ∀ tokens1 tokens2 : list string,
    jaccardSimilarity tokens1 tokens2 = jaccardSimilarity tokens2 tokens1
    ∧ (tokens1 ≠ [] →
       (list_to_set tokens1 : gset string) = list_to_set tokens2 →
       ∃ q, jaccardSimilarity tokens1 tokens2 = Fin q ∧ (q == 1)%Q)
    ∧ (tokens1 ≠ [] ∨ tokens2 ≠ [] →
       (list_to_set tokens1 : gset string) ## list_to_set tokens2 →
       ∃ q, jaccardSimilarity tokens1 tokens2 = Fin q ∧ (q == 0)%Q).
Proof.
  intros tokens1 tokens2. rewrite !jaccard_sets.
  set (s1 := list_to_set tokens1 : gset string).
  set (s2 := list_to_set tokens2 : gset string).
  split_and!.
  - by rewrite (intersection_comm_L s1 s2), (union_comm_L s1 s2).
  - intros Hne Heq. rewrite <- Heq.
    assert (Hu : s1 ∪ s1 = s1).
    { apply set_eq. intros x. rewrite elem_of_union. tauto. }
    assert (Hi : s1 ∩ s1 = s1).
    { apply set_eq. intros x. rewrite elem_of_intersection. tauto. }
    rewrite Hu, Hi.
    assert (Hsize : size s1 ≠ 0).
    { intros Hz. apply size_empty_inv, leibniz_equiv in Hz.
      by apply list_to_set_empty_inv in Hz. }
    destruct (size s1) as [|n] eqn:Hn; [done|]. simpl.
    eexists; split; [done|]. unfold Qeq. simpl.
    rewrite <- (positive_nat_Z (Pos.of_nat (S n))), Nat2Pos.id by done. lia.
  - intros Hne Hdisj.
    assert (Hinter : s1 ∩ s2 = ∅) by (apply leibniz_equiv, disjoint_intersection; done).
    rewrite Hinter, size_empty.
    assert (Hsize : size (s1 ∪ s2) ≠ 0).
    { intros Hz. apply size_empty_inv, leibniz_equiv, empty_union_L in Hz as [H1 H2].
      apply list_to_set_empty_inv in H1, H2. by destruct Hne. }
    destruct (size (s1 ∪ s2)) as [|n]; [done|]. simpl.
    eexists; split; [done|]. done.
Qed.

Lemma jaccard_symmetric_and_extremes_witness :
  (∃ q, jaccardSimilarity ["red"; "car"] ["car"; "red"; "car"] = Fin q ∧ (q == 1)%Q)
  ∧ (∃ q, jaccardSimilarity ["red"; "car"] ["boat"] = Fin q ∧ (q == 0)%Q).
Proof.
  split.
  - apply (proj1 (proj2 (jaccard_symmetric_and_extremes _ _))); [done|].
    apply set_eq. intros x. rewrite !elem_of_list_to_set, !elem_of_cons. tauto.
  - apply (proj2 (proj2 (jaccard_symmetric_and_extremes _ _))); [by left|].
    intros x. rewrite !elem_of_list_to_set, !elem_of_cons, !elem_of_nil.
    intros [->|[->|[]]] [?|[]]; done.
Defined.

(** *** Tokens *)

Lemma string_forall_rev_app (p : ascii → bool) (s acc : string) :
  string_forall p s = true → string_forall p acc = true →
  string_forall p (String.rev_app s acc) = true.
Proof.
  revert acc. induction s as [|c r IH]; intros acc Hs Hacc; simpl in *; [done|].
  apply andb_prop in Hs as [Hc Hr]. apply IH; [done|]. simpl. by rewrite Hc.
Qed.

Lemma string_forall_filter (p : ascii → bool) (s : string) :
  string_forall p (filter_chars p s) = true.
Proof.
  induction s as [|c r IH]; simpl; [done|].
  destruct (p c) eqn:Hc; simpl; [by rewrite Hc|done].
Qed.

Lemma string_forall_weaken (p q : ascii → bool) (s : string) :
  (∀ c, p c = true → q c = true) →
  string_forall p s = true → string_forall q s = true.
Proof.
  intros Hpq. induction s as [|c r IH]; simpl; [done|].
  intros [Hc Hr]%andb_prop. by rewrite (Hpq _ Hc), IH.
Qed.

Lemma filter_lowered_chars (s : string) :
  string_forall (λ c, is_lower_word c || is_space c) (strip_punct (toLowerCase s)) = true.
Proof.
  unfold strip_punct, toLowerCase.
  induction s as [|c r IH]; simpl; [done|].
  destruct (is_word (lower_char c) || is_space (lower_char c)) eqn:Hc; [|done].
  simpl. rewrite IH, andb_true_r. clear IH. revert Hc.
  destruct c as [[] [] [] [] [] [] [] []]; vm_compute; done.
Qed.

(** The pieces of a split hold no white space. *)
Lemma split_go_pieces (p : ascii → bool) (s cur : string) (in_sep : bool) :
  string_forall (λ c, p c || is_space c) s = true →
  string_forall p cur = true →
  Forall (λ t, string_forall p t = true) (split_go cur in_sep s).
Proof.
  revert cur in_sep. induction s as [|c r IH]; intros cur in_sep Hs Hcur; simpl in *.
  { constructor; [|done]. by apply string_forall_rev_app. }
  apply andb_prop in Hs as [Hc Hr].
  destruct (is_space c) eqn:Hsp.
  - destruct in_sep; [by apply IH|].
    constructor; [by apply string_forall_rev_app|]. by apply IH.
  - apply IH; [done|]. simpl. rewrite Hcur, andb_true_r.
    by rewrite orb_false_r in Hc.
Qed.

(** The tokens of a text are never empty and are made of lower-case
    letters, digits and underscores only, whatever the text. *)
Theorem tokens_are_lowercase_words :
  ∀ text : string,
    Forall (λ t, t ≠ "" ∧ string_forall is_lower_word t = true)
           (tokenizeAndNormalize text).
Proof.
  intros text. unfold tokenizeAndNormalize.
  apply Forall_forall. intros t [Hlen Ht]%list_elem_of_filter. split.
  - intros ->. simpl in Hlen. lia.
  - pose proof (split_go_pieces is_lower_word _ "" false (filter_lowered_chars text) eq_refl)
      as Hall.
    rewrite Forall_forall in Hall. by apply Hall.
Qed.

(** *** The value of [levenshteinDistance] *)

Lemma matrix_set_dims (rows cols : nat) (m : list (list nat)) (j i v : nat) :
  matrix_dims rows cols m → matrix_dims rows cols (matrix_set m j i v).
Proof.
  intros [Hlen Hrows]. unfold matrix_set. split; [by rewrite length_alter|].
  intros j' row. destruct (decide (j = j')) as [->|Hne].
  - rewrite list_lookup_alter_eq. destruct (m !! j') as [row'|] eqn:Hrow; [|done].
    simpl. intros [= <-]. rewrite length_insert. by eapply Hrows.
  - rewrite list_lookup_alter_ne by done. apply Hrows.
Qed.

Lemma matrix_get_set_eq (rows cols : nat) (m : list (list nat)) (j i v : nat) :
  matrix_dims rows cols m → j < rows → i < cols →
  matrix_get (matrix_set m j i v) j i = v.
Proof.
  intros [Hlen Hrows] Hj Hi. unfold matrix_get, matrix_set.
  rewrite list_lookup_alter_eq.
  destruct (m !! j) as [row|] eqn:Hrow.
  - simpl. rewrite list_lookup_insert_eq; [done|]. by rewrite (Hrows _ _ Hrow).
  - apply lookup_ge_None in Hrow. lia.
Qed.

Lemma matrix_dims_zero (rows cols : nat) :
  matrix_dims rows cols (replicate rows (replicate cols 0)).
Proof.
  split; [by rewrite length_replicate|].
  intros j row [-> _]%lookup_replicate. by rewrite length_replicate.
Qed.

Lemma matrix_get_zero (rows cols j i : nat) :
  matrix_get (replicate rows (replicate cols 0)) j i = 0.
Proof.
  unfold matrix_get.
  destruct (replicate rows (replicate cols 0) !! j) as [row|] eqn:Hrow; simpl; [|done].
  apply lookup_replicate in Hrow as [-> _].
  destruct (replicate cols 0 !! i) as [x|] eqn:Hx; simpl; [|done].
  by apply lookup_replicate in Hx as [-> _].
Qed.

Lemma string_take_all (s : string) : string_take (String.length s) s = s.
Proof. induction s as [|c r IH]; simpl; [done|]. by rewrite IH. Qed.

Lemma string_take_length (n : nat) (s : string) :
  n ≤ String.length s → String.length (string_take n s) = n.
Proof.
  revert s. induction n as [|n IH]; intros [|c r] Hn; simpl in *; try done; try lia.
  rewrite IH; [done|lia].
Qed.

Lemma string_take_succ (i : nat) (s1 s2 : string) :
  i < String.length s1 → i < String.length s2 →
  (string_take (S i) s1 = string_take (S i) s2
   ↔ string_take i s1 = string_take i s2 ∧ charAt s1 i = charAt s2 i).
Proof.
  unfold charAt. revert s1 s2.
  induction i as [|i IH]; intros [|c1 r1] [|c2 r2] H1 H2; simpl in *; try lia.
  - split; [intros [= ->]; done | intros [_ [= ->]]; done].
  - specialize (IH r1 r2 ltac:(lia) ltac:(lia)). simpl in IH. split.
    + intros [= -> Hr]. apply IH in Hr as [-> ->]. done.
    + intros [[= -> Hr] Hget]. f_equal. apply IH. done.
Qed.

Section Levenshtein.
Variables str1 str2 : string.

Abbreviation len1 := (String.length str1).
Abbreviation len2 := (String.length str2).
Abbreviation filled := (matrix_filled str1 str2).
Abbreviation final := (lev_cell_value str1 str2).

Lemma filled_weaken (pr pr' : nat → nat → Prop) (m : list (list nat)) :
  filled pr m →
  (∀ j i, j ≤ len2 → i ≤ len1 → (pr' j i ↔ pr j i)) →
  filled pr' m.
Proof.
  intros [Hdims Hcells] Hiff. split; [done|].
  intros j i Hj Hi. destruct (Hcells j i Hj Hi) as [Hdone Hnot].
  rewrite (Hiff j i Hj Hi). done.
Qed.

Lemma filled_step (pr pr' : nat → nat → Prop) (m : list (list nat)) (j i v : nat) :
  filled pr m → j ≤ len2 → i ≤ len1 → v = final j i →
  (∀ j' i', j' ≤ len2 → i' ≤ len1 → (pr' j' i' ↔ pr j' i' ∨ (j' = j ∧ i' = i))) →
  filled pr' (matrix_set m j i v).
Proof.
  intros [Hdims Hcells] Hj Hi -> Hiff. split; [by apply matrix_set_dims|].
  intros j' i' Hj' Hi'. rewrite (Hiff j' i' Hj' Hi').
  destruct (decide (j' = j ∧ i' = i)) as [[-> ->]|Hne].
  - rewrite (matrix_get_set_eq _ _ _ _ _ _ Hdims) by lia. split; [done|].
    intros Hnot. exfalso. apply Hnot. by right.
  - rewrite matrix_get_set_other by lia.
    destruct (Hcells j' i' Hj' Hi') as [Hdone Hnot]. split.
    + intros [?|?]; [by apply Hdone|done].
    + intros H. apply Hnot. intros ?. apply H. by left.
Qed.

(** The value of a cell away from the first row and column, from that of
    its diagonal neighbour. *)
Lemma final_diagonal (j i : nat) :
  1 ≤ j ≤ len2 → 1 ≤ i ≤ len1 →
  Nat.min 1 (final (j - 1) (i - 1) + indicator str1 str2 i j) = final j i.
Proof.
  intros Hj Hi. destruct j as [|j]; [lia|]. destruct i as [|i]; [lia|].
  simpl. rewrite !Nat.sub_0_r. unfold indicator. simpl. rewrite !Nat.sub_0_r.
  change (match str1 with "" => "" | String c r => String c (string_take i r) end)
    with (string_take (S i) str1).
  change (match str2 with "" => "" | String c r => String c (string_take i r) end)
    with (string_take (S i) str2).
  destruct (decide (i = j)) as [->|Hne].
  - pose proof (string_take_succ j str1 str2 ltac:(lia) ltac:(lia)) as Hsucc.
    unfold lev_cell_value. destruct j as [|j].
    + simpl in Hsucc. repeat case_decide; try done; try lia; exfalso; tauto.
    + repeat case_decide; try done; try lia; exfalso; tauto.
  - unfold lev_cell_value. destruct j as [|j], i as [|i]; try lia;
      repeat case_decide; try done; try lia; exfalso; intuition lia.
Qed.

Lemma lev_cell_filled (j i : nat) (m : list (list nat)) :
  1 ≤ j ≤ len2 → 1 ≤ i ≤ len1 →
  filled (λ j' i', j' = 0 ∨ i' = 0 ∨ j' < j ∨ (j' = j ∧ i' < i)) m →
  filled (λ j' i', j' = 0 ∨ i' = 0 ∨ j' < j ∨ (j' = j ∧ i' < S i))
    (lev_cell str1 str2 j m i).
Proof.
  intros Hj Hi Hm. unfold lev_cell.
  pose proof Hm as [Hdims Hcells].
  destruct (Hcells j i ltac:(lia) ltac:(lia)) as [_ Hzero].
  destruct (Hcells (j - 1) (i - 1) ltac:(lia) ltac:(lia)) as [Hdiag _].
  rewrite Hzero by lia. rewrite Hdiag by lia.
  eapply filled_step; [exact Hm | lia | lia | |].
  - rewrite <- (final_diagonal j i) by lia. lia.
  - intros j' i' _ _. cbv beta. lia.
Qed.

Lemma lev_row_filled (j : nat) (m : list (list nat)) :
  1 ≤ j ≤ len2 →
  filled (λ j' i', j' = 0 ∨ i' = 0 ∨ j' < j) m →
  filled (λ j' i', j' = 0 ∨ i' = 0 ∨ j' < S j) (lev_row str1 str2 len1 m j).
Proof.
  intros Hj Hm. unfold lev_row.
  cut (filled (λ j' i', j' = 0 ∨ i' = 0 ∨ j' < j ∨ (j' = j ∧ i' < 1 + len1))
         (foldl (lev_cell str1 str2 j) m (seq 1 len1))).
  { intros H. eapply filled_weaken; [exact H|]. intros j' i' _ Hi'. cbv beta. lia. }
  apply (foldl_seq_invariant
           (λ i, filled (λ j' i', j' = 0 ∨ i' = 0 ∨ j' < j ∨ (j' = j ∧ i' < i)))).
  - eapply filled_weaken; [exact Hm|]. intros j' i' _ _. cbv beta. lia.
  - intros i m' Hi Hm'. apply lev_cell_filled; [lia|lia|done].
Qed.

Lemma levenshteinDistance_final : levenshteinDistance str1 str2 = final len2 len1.
Proof.
  unfold levenshteinDistance.
  match goal with
  | |- matrix_get ?m _ _ = _ =>
      cut (filled (λ j' i', j' = 0 ∨ i' = 0 ∨ j' < 1 + len2) m)
  end.
  { intros [_ Hcells]. apply (Hcells len2 len1); lia. }
  apply (foldl_seq_invariant (λ j, filled (λ j' i', j' = 0 ∨ i' = 0 ∨ j' < j)));
    [|intros j m Hj Hm; apply lev_row_filled; [lia|done]].
  eapply filled_weaken.
  - replace (len2 + 1) with (0 + (len2 + 1)) at 1 by lia.
    apply (foldl_seq_invariant (λ k, filled (λ j' i', j' = 0 ∨ (i' = 0 ∧ j' < k)))).
    + eapply filled_weaken.
      * replace (len1 + 1) with (0 + (len1 + 1)) at 1 by lia.
        apply (foldl_seq_invariant (λ k, filled (λ j' i', j' = 0 ∧ i' < k))).
        -- split; [apply matrix_dims_zero|].
           intros j i _ _. split; [lia|]. intros _. apply matrix_get_zero.
        -- intros k m Hk Hm. eapply filled_step; [exact Hm|lia|lia|done|].
           intros j' i' _ _. cbv beta. lia.
      * intros j' i' _ Hi'. cbv beta. lia.
    + intros k m Hk Hm. eapply filled_step; [exact Hm|lia|lia| |].
      * by destruct k.
      * intros j' i' _ _. cbv beta. lia.
  - intros j' i' Hj' _. cbv beta. lia.
Qed.

End Levenshtein.

(** The function named after Levenshtein tells two strings apart, no more:
    against the empty string it returns the length of the other string; for
    two strings that each have a character it returns [0] when they are
    equal and [1] when they differ, however much they differ. *)
Theorem levenshteinDistance_value :
  ∀ str1 str2 : string,
    levenshteinDistance str1 str2
    = if decide (str2 = "") then String.length str1
      else if decide (str1 = "") then String.length str2
      else if decide (str1 = str2) then 0 else 1.
Proof.
  intros str1 str2. rewrite levenshteinDistance_final.
  assert (Hlen : ∀ s : string, String.length s = 0 → s = "")
    by (intros [|c r]; simpl; [done|lia]).
  case_decide as H2.
  { subst str2. reflexivity. }
  case_decide as H1.
  { subst str1. unfold lev_cell_value. simpl.
    by destruct (String.length str2). }
  unfold lev_cell_value.
  destruct (String.length str2) as [|n2] eqn:Hn2; [by apply Hlen in Hn2|].
  destruct (String.length str1) as [|n1] eqn:Hn1; [by apply Hlen in Hn1|].
  rewrite <- Hn1.
  case_decide as Hsame; case_decide as Heq; try done.
  - destruct Hsame as [Hn Htake]. exfalso. apply Heq.
    rewrite string_take_all in Htake. rewrite Htake.
    rewrite Hn, <- Hn2. apply string_take_all.
  - exfalso. apply Hsame. subst str2. split; [congruence|done].
Qed.

(** ** Batch validation *)

Section BatchFacts.
Import Batch.

Lemma insert_entry_perm (x : Entry) (l : list Entry) : insert_entry x l ≡ₚ x :: l.
Proof.
  induction l as [|y l IH]; simpl; [done|].
  destruct (positive (by_confidence x y)); [|done].
  rewrite IH. apply Permutation_swap.
Qed.

Lemma sort_entries_perm (l : list Entry) : sort_entries l ≡ₚ l.
Proof.
  induction l as [|x l IH]; simpl; [done|].
  by rewrite insert_entry_perm, IH.
Qed.

Lemma not_positive_geb (a b : number) :
  a ≠ NaN → b ≠ NaN → positive (sub b a) = false → geb a b = true.
Proof.
  destruct a as [p| | |], b as [q| | |]; simpl; try done.
  intros _ _ H. apply negb_false_iff, Qle_bool_iff in H. apply Qle_bool_iff.
  apply Qle_minus_iff in H. apply Qle_minus_iff.
  eapply Qle_trans; [exact H|]. apply Qle_lteq. right. ring.
Qed.

Lemma positive_geb (a b : number) :
  positive (sub b a) = true → geb b a = true.
Proof.
  destruct a as [p| | |], b as [q| | |]; simpl; try done.
  intros H. apply negb_true_iff in H. apply Qle_bool_iff.
  destruct (Qlt_le_dec 0 (q - p)) as [Hlt|Hle].
  - apply Qlt_le_weak in Hlt. by apply Qle_minus_iff in Hlt.
  - apply Qle_bool_iff in Hle. congruence.
Qed.

Lemma geb_trans (a b c : number) :
  geb a b = true → geb b c = true → geb a c = true.
Proof.
  destruct a as [p| | |], b as [q| | |], c as [r| | |]; simpl; try done.
  intros H1%Qle_bool_iff H2%Qle_bool_iff. apply Qle_bool_iff. by eapply Qle_trans.
Qed.

Lemma geb_refl (a : number) : a ≠ NaN → geb a a = true.
Proof. destruct a as [p| | |]; simpl; try done. intros _. apply Qle_bool_iff, Qle_refl. Qed.

Lemma insert_entry_best (x : Entry) (l : list Entry) :
  confidence (result x) ≠ NaN →
  Forall (λ e, confidence (result e) ≠ NaN) l →
  head_is_best l → head_is_best (insert_entry x l).
Proof.
  intros Hx Hl Hbest. destruct l as [|y l]; simpl.
  { constructor; [by apply geb_refl|done]. }
  apply Forall_cons in Hl as [Hy Hl]. simpl in Hbest.
  destruct (positive (by_confidence x y)) eqn:Hpos; simpl.
  - unfold by_confidence in Hpos. apply positive_geb in Hpos.
    rewrite (insert_entry_perm x l). apply Forall_cons in Hbest as [Hyy Hrest].
    constructor; [done|]. constructor; [done|done].
  - unfold by_confidence in Hpos. apply not_positive_geb in Hpos; [|done..].
    constructor; [by apply geb_refl|].
    eapply Forall_impl; [exact Hbest|]. intros e He. simpl in He.
    by eapply geb_trans.
Qed.

Lemma sort_entries_best (l : list Entry) :
  Forall (λ e, confidence (result e) ≠ NaN) l → head_is_best (sort_entries l).
Proof.
  induction l as [|x l IH]; intros Hl; simpl; [done|].
  apply Forall_cons in Hl as [Hx Hl].
  apply insert_entry_best; [done| |by apply IH].
  by rewrite sort_entries_perm.
Qed.

(** With no possible answer the batch validation throws.  Otherwise, and
    provided that no verdict has a confidence that is not a number, it
    returns the verdicts on all the answers, each once, the best match
    being the first of them and having the greatest confidence; the
    consensus flag tells whether that confidence exceeds [0.75]. *)
Theorem batch_returns_the_most_confident :
  ∀ (userGuess imageDescription : string)
    (possibleAnswers : list (string * option JudgeReply)),
    let verdicts :=
      map (λ aj, mkEntry aj.1
                   (validateAnswerAdvanced aj.2 userGuess aj.1 imageDescription))
          possibleAnswers in
    (possibleAnswers = [] ↔
       validateAnswerBatch userGuess possibleAnswers imageDescription = None)
    ∧ (Forall (λ e, confidence (result e) ≠ NaN) verdicts →
       ∀ r, validateAnswerBatch userGuess possibleAnswers imageDescription = Some r →
         allResults r ≡ₚ verdicts
         ∧ head (allResults r) = Some (bestMatch r)
         ∧ Forall (λ e, geb (confidence (result (bestMatch r)))
                            (confidence (result e)) = true) (allResults r)
         ∧ consensus r = gtb (confidence (result (bestMatch r))) (Fin (75 # 100))).
Proof.
  intros g d answers verdicts. unfold validateAnswerBatch. fold verdicts.
  pose proof (sort_entries_perm verdicts) as Hperm.
  split.
  - split.
    + intros ->. done.
    + destruct (sort_entries verdicts) as [|best rest] eqn:Hsort; [|done].
      intros _. apply Permutation_nil_l in Hperm. subst verdicts.
      by destruct answers.
  - intros Hnan r Hr. pose proof (sort_entries_best verdicts Hnan) as Hbest.
    destruct (sort_entries verdicts) as [|best rest] eqn:Hsort; [done|].
    injection Hr as <-. simpl. split_and!; done.
Qed.

Lemma batch_returns_the_most_confident_witness :
  ∃ r, validateAnswerBatch "a beacon" [("lighthouse", None); ("A Beacon", None)] "" = Some r
       ∧ answer (bestMatch r) = "A Beacon"
       ∧ consensus r = true
       ∧ Forall (λ e, geb (confidence (result (bestMatch r)))
                          (confidence (result e)) = true) (allResults r).
Proof.
  eexists. split; [reflexivity|]. split; [reflexivity|]. split; [reflexivity|].
  refine (proj1 (proj2 (proj2
    (proj2 (batch_returns_the_most_confident "a beacon" ""
              [("lighthouse", None); ("A Beacon", None)]) _ _ eq_refl)))).
  repeat constructor; vm_compute; discriminate.
Defined.

End BatchFacts.

(** ** Rounds and games, continued *)

Section GameFacts.
Import Game.
Variable toUpperCase : string → string.

Abbreviation play'' := (play toUpperCase).
Abbreviation move_step'' := (move_step toUpperCase).
Abbreviation game_run' := (game_run toUpperCase).
Abbreviation game_step' := (game_step toUpperCase).

Lemma round_by_attempts_step (st : State * bool) (m : Move) :
  round_by_attempts st → round_by_attempts (move_step'' st m).
Proof.
  destruct st as [s acc]. unfold round_by_attempts. simpl.
  intros (Hload & Hopen & Hclosed).
  destruct m as [v|env]; simpl; [done|].
  unfold guess_accepted.
  destruct (guess_blocked s) eqn:Hactive; simpl.
  { rewrite (handleGuess_blocked _ _ _ Hactive), orb_false_r. done. }
  assert (Hrev : revealed s = false) by (by apply orb_false_elim in Hactive as [? ?]).
  destruct (Hopen Hrev) as (-> & Hatt & Hscore & Hblur & Hhint & Hhist). simpl.
  destruct (isValid (validation env s)) eqn:Hv.
  - destruct (handleGuess_accepted toUpperCase env s Hactive Hv)
      as (-> & -> & -> & -> & _ & _ & -> & _).
    split_and!; [done|done|]. intros _. split; [done|]. right. done.
  - destruct (handleGuess_rejected toUpperCase env s Hactive Hv)
      as (-> & _ & -> & Hcont & Hover).
    unfold MAX_ATTEMPTS, SCORE_DECREMENT, BLUR_DECREMENT in *.
    destruct (decide (attempts s + 1 < 5)%Z) as [Hin|Hout].
    + destruct (Hcont Hin) as (-> & -> & -> & -> & ->).
      split_and!; [done| |done]. intros _.
      rewrite length_app. simpl. split_and!; try done; lia.
    + destruct Hover as (-> & -> & -> & _); [lia|].
      split_and!; [done|done|]. intros _. split; [done|]. left.
      split_and!; [done|lia|done].
Qed.

Lemma round_by_attempts_start (lenv : LoadEnv) (before : State) :
  round_by_attempts (loadNewImage lenv before, false).
Proof.
  unfold round_by_attempts, loadNewImage.
  destruct (imageData lenv) as [[url d]|]; simpl; split_and!; done.
Qed.

Lemma round_by_attempts_run (lenv : LoadEnv) (before : State) (moves : list Move) :
  round_by_attempts (play'' moves (loadNewImage lenv before)).
Proof.
  unfold play.
  pose proof (round_by_attempts_start lenv before) as Hstart.
  revert Hstart. generalize (loadNewImage lenv before, false).
  induction moves as [|m moves IH]; intros st Hst; simpl; [done|].
  apply IH. by apply round_by_attempts_step.
Qed.

(** The score table of the game: in a round played in sequence, as long as
    the round is not revealed the score is [100 - 15 * attempts], the blur
    [20 - 4 * attempts], the hint level the number of attempts and the hint
    history as long; a guess accepted after [n] rejections leaves the score
    at [100 - 15 * n], and a round lost leaves [0]; a revealed round has no
    blur. *)
Theorem round_state_follows_attempts :
  ∀ (lenv : LoadEnv) (before : State) (moves : list Move),
    let st := play'' moves (loadNewImage lenv before) in
    let s := st.1 in
    (revealed s = false →
       st.2 = false
       ∧ (0 ≤ attempts s ≤ 4)%Z
       ∧ score s = (100 - 15 * attempts s)%Z
       ∧ blur s = (20 - 4 * attempts s)%Z
       ∧ hintLevel s = attempts s
       ∧ Z.of_nat (length (previousHints s)) = attempts s)
    ∧ (revealed s = true →
         blur s = 0%Z
         ∧ ((st.2 = false ∧ attempts s = 5%Z ∧ score s = 0%Z)
            ∨ (st.2 = true ∧ (0 ≤ attempts s ≤ 4)%Z
               ∧ score s = (100 - 15 * attempts s)%Z))).
Proof.
  intros lenv before moves st s.
  destruct (round_by_attempts_run lenv before moves) as (_ & Hopen & Hclosed).
  split; [exact Hopen|exact Hclosed].
Qed.

(** Once a round is revealed, typing and submitting change nothing but the
    text of the guess field. *)
Theorem revealed_round_is_final :
  ∀ (moves : list Move) (s : State),
    revealed s = true →
    with_guess (guess s) (play'' moves s).1 = s
    ∧ (play'' moves s).2 = false.
Proof.
  intros moves s Hrev. unfold play.
  cut (∀ st : State * bool,
         revealed st.1 = true →
         with_guess (guess s) st.1 = s →
         with_guess (guess s) (foldl move_step'' st moves).1 = s
         ∧ (foldl move_step'' st moves).2 = st.2).
  { intros H. apply (H (s, false)); [done|]. by destruct s. }
  induction moves as [|m moves IH]; intros [s' acc] Hrev' Heq; simpl in *; [done|].
  destruct m as [v|env]; simpl.
  - apply (IH (handleGuessChange v s', acc)); [done|]. simpl.
    rewrite <- Heq. by destruct s'.
  - assert (Hblocked : guess_blocked s' = true) by (unfold guess_blocked; by rewrite Hrev').
    unfold guess_accepted. rewrite (handleGuess_blocked _ _ _ Hblocked), Hblocked.
    rewrite orb_false_r. by apply (IH (s', acc)).
Qed.

Lemma game_step_highScore (s : State) (m : GameMove) :
  (highScore s ≤ highScore (game_step' s m))%Z.
Proof.
  destruct m as [lenv|v|env]; simpl.
  - unfold loadNewImage. destruct (imageData lenv) as [[url d]|]; simpl; lia.
  - lia.
  - destruct (guess_blocked s) eqn:Hactive.
    { rewrite (handleGuess_blocked _ _ _ Hactive). lia. }
    destruct (isValid (validation env s)) eqn:Hv.
    + destruct (handleGuess_accepted toUpperCase env s Hactive Hv)
        as (_ & _ & _ & _ & _ & _ & _ & ->). lia.
    + destruct (handleGuess_rejected toUpperCase env s Hactive Hv)
        as (_ & -> & _). lia.
Qed.

End GameFacts.

Lemma revealed_round_is_final_witness :
  let s := submit_all toUpperCase_ascii five_wrong_guesses lighthouse_round in
  revealed s = true
  ∧ with_guess (guess s)
      (play toUpperCase_ascii [TypeGuess "lighthouse"; SubmitGuess no_help] s).1 = s.
Proof.
  split; [reflexivity|].
  exact (proj1 (revealed_round_is_final toUpperCase_ascii
                  [TypeGuess "lighthouse"; SubmitGuess no_help]
                  (submit_all toUpperCase_ascii five_wrong_guesses lighthouse_round)
                  eq_refl)).
Defined.

(** ** Interleaved guesses, continued *)

Lemma bounded_actions_keep_range (acts : list Action) (s : State) :
  Forall bounded_action acts → counters_in_range s →
  counters_in_range (dispatch_all acts s).
Proof.
  revert s. induction acts as [|a acts IH]; intros s Hacts Hs; simpl; [done|].
  apply Forall_cons in Hacts as [Ha Hacts]. apply IH; [done|].
  destruct Hs as (Hscore & Hblur & Hhint). unfold counters_in_range.
  destruct a; simpl in *; split_and!; try done; lia.
Qed.

Section SessionMore.
Variable toUpperCase : string → string.

Abbreviation session_step'' := (session_step toUpperCase).
Abbreviation session_run'' := (session_run toUpperCase).
Abbreviation after_validation'' := (after_validation toUpperCase).

Lemma after_validation_bounded env s :
  Forall bounded_action (after_validation'' env s).1.
Proof.
  unfold after_validation, on_correct, wrong_guess_updates, on_game_over.
  destruct (isValid _); [|case_decide]; cbn [fst app]; try case_decide;
    cbn [app];
    repeat (apply Forall_cons_2; [cbn [bounded_action]; first [done | lia]|]);
    apply Forall_nil_2.
Qed.

Lemma session_step_range (ss : Session) (e : Event) :
  counters_in_range (store ss) → counters_in_range (store (session_step'' ss e)).
Proof.
  intros Hs. destruct e as [v|env|k]; cbn -[dispatch_all after_hints]; [done| |].
  - destruct (guess_blocked (store ss)); [done|]. simpl. done.
  - destruct (inflight ss !! k) as [p|]; [|done].
    destruct (stage p).
    + pose proof (after_validation_bounded (env_of p) (closure p)) as H.
      destruct (after_validation'' (env_of p) (closure p)) as [acts hints].
      by apply bounded_actions_keep_range.
    + apply bounded_actions_keep_range; [|done]. repeat constructor.
Qed.

(** However the evaluations of several guesses interleave, and whatever
    states their closures hold, the score and the blur never become
    negative and the hint level never exceeds [4]. *)
Theorem session_counters_stay_in_range :
  ∀ (events : list Event) (ss : Session),
    (0 ≤ score (store ss))%Z → (0 ≤ blur (store ss))%Z → (hintLevel (store ss) ≤ 4)%Z →
    let s' := store (session_run'' events ss) in
    (0 ≤ score s')%Z ∧ (0 ≤ blur s')%Z ∧ (hintLevel s' ≤ 4)%Z.
Proof.
  intros events ss Hscore Hblur Hhint.
  assert (Hs : counters_in_range (store ss)) by done.
  clear Hscore Hblur Hhint. revert ss Hs. unfold session_run.
  induction events as [|e events IH]; intros ss Hs; simpl; [done|].
  apply IH. by apply session_step_range.
Qed.

(** A rejection that resolves late writes the blur of its own closure: when
    it is not the closure's last attempt, the blur of the round becomes the
    closure's blur less [4], whatever the round has become in the meantime,
    revealed included. *)
Theorem late_rejection_sets_closure_blur :
  ∀ (ss : Session) (k : nat) (p : Pending),
    inflight ss !! k = Some p →
    stage p = AwaitValidation →
    isValid (validation (env_of p) (closure p)) = false →
    (attempts (closure p) + 1 < MAX_ATTEMPTS)%Z →
    let s' := store (session_step'' ss (Resumed k)) in
    blur s' = Z.max 0 (blur (closure p) - BLUR_DECREMENT)
    ∧ revealed s' = revealed (store ss)
    ∧ score s' = Z.max 0 (score (store ss) - SCORE_DECREMENT).
Proof.
  intros ss k p Hk Hstage Hv Hlt. simpl. rewrite Hk, Hstage.
  unfold after_validation. rewrite Hv.
  case_decide; [lia|]. done.
Qed.

End SessionMore.

Lemma session_counters_stay_in_range_witness :
  let s' := store (session_run toUpperCase_ascii racing_guesses
                     (mkSession lighthouse_round [])) in
  (0 ≤ score s')%Z ∧ (0 ≤ blur s')%Z ∧ (hintLevel s' ≤ 4)%Z.
Proof.
  apply (session_counters_stay_in_range toUpperCase_ascii); vm_compute; discriminate.
Defined.

Lemma late_rejection_sets_closure_blur_witness :
  let ss := session_run toUpperCase_ascii
              [ Typed "cat"; Submitted no_help;
                Typed "lighthouse"; Submitted no_help; Resumed 1 ]
              (mkSession lighthouse_round []) in
  revealed (store ss) = true
  ∧ blur (store ss) = 0%Z
  ∧ revealed (store (session_step toUpperCase_ascii ss (Resumed 0))) = true
  ∧ blur (store (session_step toUpperCase_ascii ss (Resumed 0))) = 16%Z.
Proof.
  split; [reflexivity|]. split; [reflexivity|].
  pose proof (late_rejection_sets_closure_blur toUpperCase_ascii
                (session_run toUpperCase_ascii
                   [ Typed "cat"; Submitted no_help;
                     Typed "lighthouse"; Submitted no_help; Resumed 1 ]
                   (mkSession lighthouse_round []))
                0 _ eq_refl eq_refl eq_refl eq_refl) as (Hblur & Hrev & _).
  split; [exact Hrev|exact Hblur].
Defined.

(** ** Guesses handled one at a time, and guesses that overlap *)

Section Overlap.
Variable toUpperCase : string → string.

Abbreviation session_step_ := (session_step toUpperCase).
Abbreviation session_run_ := (session_run toUpperCase).
Abbreviation verdicts_ := (verdicts toUpperCase).
Abbreviation rejections_ := (rejections toUpperCase).
Abbreviation some_accepted_ := (some_accepted toUpperCase).
Abbreviation play_ := (play toUpperCase).

(** Every rejection that a session resolves adds one attempt, and nothing
    else changes the attempts. *)
Lemma session_step_attempts (ss : Session) (e : Event) :
  attempts (store (session_step_ ss e))
  = (attempts (store ss)
     + Z.of_nat (length (filter (λ b : bool, b = false)
                           (option_list (resolved_verdict ss e)))))%Z.
Proof.
  destruct e as [v|env|k]; cbn -[dispatch_all after_hints after_validation].
  - lia.
  - destruct (guess_blocked (store ss)); simpl; lia.
  - destruct (inflight ss !! k) as [p|]; [|simpl; lia].
    destruct (stage p); [|simpl; lia].
    unfold after_validation, on_correct.
    destruct (isValid (validation (env_of p) (closure p))); simpl.
    + case_decide; simpl; lia.
    + case_decide; simpl; lia.
Qed.

Lemma session_run_attempts (events : list Event) (ss : Session) :
  attempts (store (session_run_ events ss))
  = (attempts (store ss) + Z.of_nat (rejections_ events ss))%Z.
Proof.
  unfold session_run, rejections. revert ss.
  induction events as [|e events IH]; intros ss; simpl; [lia|].
  rewrite IH, session_step_attempts, filter_app, length_app. lia.
Qed.

Lemma pending_behind_mono (s s' : State) (p : Pending) :
  (attempts s ≤ attempts s')%Z → pending_behind s p → pending_behind s' p.
Proof. unfold pending_behind. destruct (stage p); lia. Qed.

Lemma session_invariant_start (lenv : LoadEnv) (before : State) :
  session_invariant (mkSession (loadNewImage lenv before) [], false).
Proof.
  unfold session_invariant, loadNewImage.
  destruct (imageData lenv) as [[url d]|]; simpl; split_and!; done.
Qed.

(** One event of a session, with the record of the accepted guesses. *)
Lemma session_invariant_step (ss : Session) (acc : bool) (e : Event) :
  session_invariant (ss, acc) →
  session_invariant
    (session_step_ ss e, acc || existsb id (option_list (resolved_verdict ss e)))
  ∧ (score (store (session_step_ ss e)) ≤ score (store ss))%Z.
Proof.
  intros (Hscore & Hhint & Hpend & Hrev & Hacc). unfold session_invariant.
  simpl in *.
  destruct e as [v|env|k]; cbn -[dispatch_all after_hints after_validation].
  - rewrite orb_false_r. split_and!; [done..|lia].
  - rewrite orb_false_r.
    destruct (guess_blocked (store ss)); simpl; [split_and!; [done..|lia]|].
    split_and!; [done|done| |done|done|lia].
    apply Forall_app. split; [done|]. apply Forall_singleton.
    unfold pending_behind. simpl. lia.
  - destruct (inflight ss !! k) as [p|] eqn:Hk;
      [|rewrite orb_false_r; split_and!; [done..|lia]].
    pose proof (Forall_lookup_1 _ _ _ _ Hpend Hk) as Hp. unfold pending_behind in Hp.
    destruct (stage p) eqn:Hstage.
    + unfold after_validation, on_correct.
      destruct (isValid (validation (env_of p) (closure p))).
      * rewrite orb_true_r.
        case_decide; simpl;
          (split_and!; [done|done|by apply Forall_delete|by right|done|lia]).
      * rewrite orb_false_r.
        case_decide as Hover; simpl; unfold SCORE_DECREMENT, MAX_ATTEMPTS in *.
        -- split_and!; [lia|lia| |left; lia|done|lia].
           apply Forall_delete.
           eapply Forall_impl; [exact Hpend|]. intros q.
           apply pending_behind_mono. simpl. lia.
        -- split_and!; [lia|lia| | |done|lia].
           ++ apply Forall_insert.
              ** eapply Forall_impl; [exact Hpend|]. intros q.
                 apply pending_behind_mono. simpl. lia.
              ** unfold pending_behind. simpl. lia.
           ++ intros Hr. destruct (Hrev Hr) as [?|?]; [left; lia|by right].
    + rewrite orb_false_r. simpl.
      split_and!; [done|lia|by apply Forall_delete|done|done|lia].
Qed.

Lemma session_invariant_run (events : list Event) (ss : Session) (acc : bool) :
  session_invariant (ss, acc) →
  session_invariant (session_run_ events ss, acc || some_accepted_ events ss)
  ∧ (score (store (session_run_ events ss)) ≤ score (store ss))%Z.
Proof.
  unfold session_run, some_accepted. revert ss acc.
  induction events as [|e events IH]; intros ss acc Hss; simpl.
  { rewrite orb_false_r. split; [done|lia]. }
  destruct (session_invariant_step ss acc e Hss) as [Hnext Hle].
  destruct (IH _ _ Hnext) as [Hend Hle'].
  rewrite existsb_app, orb_assoc. split; [done|lia].
Qed.




End Overlap.





(** ** Retrying a request *)

Section RetryFacts.
Import ApiService.
Context {E A : Type}.

Lemma retry_from_success (fn : nat → E + A) (maxRetries delay : nat) :
  ∀ (remaining i k : nat) (a : A),
    i + remaining = maxRetries →
    i ≤ k < maxRetries →
    fn k = inr a →
    (∀ j, i ≤ j < k → ∃ e, fn j = inl e) →
    retry_from fn maxRetries delay remaining i
    = mkRetryRun (Returned a) (S (k - i))
        ((λ j, delay * 2 ^ j) <$> seq i (k - i)).
Proof.
  induction remaining as [|remaining IH]; intros i k a Hrem Hk Hok Hfail; [lia|].
  simpl. destruct (decide (i = k)) as [->|Hne].
  - rewrite Hok, Nat.sub_diag. done.
  - destruct (Hfail i ltac:(lia)) as [e ->].
    case_decide as Hlast; [lia|].
    rewrite (IH (S i) k a) by (try done; try lia; intros j Hj; apply Hfail; lia).
    simpl. replace (k - i) with (S (k - S i)) by lia. done.
Qed.

Lemma retry_from_failure (fn : nat → E + A) (maxRetries delay : nat) :
  ∀ (remaining i : nat) (e : E),
    i + remaining = maxRetries →
    0 < remaining →
    fn (maxRetries - 1) = inl e →
    (∀ j, i ≤ j < maxRetries → ∃ e', fn j = inl e') →
    retry_from fn maxRetries delay remaining i
    = mkRetryRun (Thrown e) remaining
        ((λ j, delay * 2 ^ j) <$> seq i (remaining - 1)).
Proof.
  induction remaining as [|remaining IH]; intros i e Hrem Hpos Hlast Hfail; [lia|].
  simpl. destruct (Hfail i ltac:(lia)) as [e' He'].
  rewrite He'. case_decide as Hi.
  - subst i. rewrite Hlast in He'.
    injection He' as ->. replace remaining with 0 by lia. done.
  - rewrite (IH (S i) e) by (try done; try lia; intros j Hj; apply Hfail; lia).
    simpl. rewrite Nat.sub_0_r. destruct remaining as [|remaining]; [lia|].
    simpl. by rewrite Nat.sub_0_r.
Qed.

Lemma retry_from_calls (fn : nat → E + A) (maxRetries delay : nat) :
  ∀ remaining i, calls (retry_from fn maxRetries delay remaining i) ≤ remaining.
Proof.
  induction remaining as [|remaining IH]; intros i; simpl; [done|].
  destruct (fn i); [|simpl; lia]. case_decide; simpl; [lia|].
  specialize (IH (S i)). lia.
Qed.

Lemma sum_backoff (delay i n : nat) :
  sum_list ((λ j, delay * 2 ^ j) <$> seq i n) = delay * 2 ^ i * (2 ^ n - 1).
Proof.
  revert i. induction n as [|n IH]; intros i; [simpl; lia|].
  cbn [seq fmap list_fmap sum_list]. fold (fmap (M:=list) (λ j, delay * 2 ^ j)).
  rewrite IH, !Nat.pow_succ_r'.
  assert (Hpow : 2 ^ n ≠ 0) by (by apply Nat.pow_nonzero).
  destruct (2 ^ n) as [|b]; [done|].
  replace (S b - 1) with b by lia. replace (2 * S b - 1) with (2 * b + 1) by lia.
  generalize (2 ^ i). intros a.
  replace (delay * (2 * a)) with (2 * (delay * a)) by lia.
  generalize (delay * a). intros x. unfold id. nia.
Qed.

(** [fetchWithRetry] returns the value of the first call that succeeds
    within [maxRetries] calls, makes no call after it, and has waited
    [delay], [2 * delay], [4 * delay], ... after each of the failures that
    came before. *)
Theorem retry_returns_first_success :
  ∀ (fn : nat → E + A) (maxRetries delay k : nat) (a : A),
    k < maxRetries →
    fn k = inr a →
    (∀ j, j < k → ∃ e, fn j = inl e) →
    fetchWithRetry fn maxRetries delay
    = mkRetryRun (Returned a) (S k) ((λ j, delay * 2 ^ j) <$> seq 0 k)
    ∧ sum_list (waits (fetchWithRetry fn maxRetries delay)) = delay * (2 ^ k - 1).
Proof.
  intros fn maxRetries delay k a Hk Hok Hfail.
  assert (Hrun : fetchWithRetry fn maxRetries delay
                 = mkRetryRun (Returned a) (S k) ((λ j, delay * 2 ^ j) <$> seq 0 k)).
  { unfold fetchWithRetry.
    rewrite (retry_from_success fn maxRetries delay maxRetries 0 k a);
      [by rewrite Nat.sub_0_r|lia|lia|done|].
    intros j Hj. apply Hfail. lia. }
  split; [exact Hrun|]. rewrite Hrun. simpl. rewrite sum_backoff. simpl. lia.
Qed.

(** When all of the [maxRetries] calls fail, [fetchWithRetry] throws the
    error of the last one, after [maxRetries] calls and a total wait of
    [delay * (2 ^ (maxRetries - 1) - 1)]; with [maxRetries] at [0] it makes
    no call and returns [undefined].  It never makes more than
    [maxRetries] calls. *)
Theorem retry_gives_up_after_max_retries :
  ∀ (fn : nat → E + A) (maxRetries delay : nat),
    calls (fetchWithRetry fn maxRetries delay) ≤ maxRetries
    ∧ (maxRetries = 0 →
       fetchWithRetry fn maxRetries delay = mkRetryRun ReturnedUndefined 0 [])
    ∧ (∀ e, 0 < maxRetries →
         fn (maxRetries - 1) = inl e →
         (∀ j, j < maxRetries → ∃ e', fn j = inl e') →
         outcome (fetchWithRetry fn maxRetries delay) = Thrown e
         ∧ calls (fetchWithRetry fn maxRetries delay) = maxRetries
         ∧ sum_list (waits (fetchWithRetry fn maxRetries delay))
           = delay * (2 ^ (maxRetries - 1) - 1)).
Proof.
  intros fn maxRetries delay. split_and!.
  - apply retry_from_calls.
  - intros ->. done.
  - intros e Hpos Hlast Hfail. unfold fetchWithRetry.
    rewrite (retry_from_failure fn maxRetries delay maxRetries 0 e);
      [|lia|done|done|intros j Hj; apply Hfail; lia].
    simpl. split_and!; [done..|]. rewrite sum_backoff. simpl. lia.
Qed.

End RetryFacts.

Lemma retry_returns_first_success_witness :
  let fn := λ i : nat, if decide (i = 2) then inr "image" else inl "timeout" in
  ApiService.fetchWithRetry fn 3 1000
  = ApiService.mkRetryRun (ApiService.Returned "image") 3 [1000; 2000]
  ∧ sum_list (ApiService.waits (ApiService.fetchWithRetry fn 3 1000)) = 3000.
Proof.
  apply (retry_returns_first_success
           (λ i : nat, if decide (i = 2) then inr "image" else inl "timeout")
           3 1000 2 "image"); [lia|done|].
  intros j Hj. exists "timeout". destruct j as [|[|j]]; [done|done|lia].
Defined.

Lemma retry_gives_up_after_max_retries_witness :
  let fn := λ i : nat, @inl string string "offline" in
  ApiService.outcome (ApiService.fetchWithRetry fn 3 1000) = ApiService.Thrown "offline"
  ∧ ApiService.calls (ApiService.fetchWithRetry fn 3 1000) = 3
  ∧ sum_list (ApiService.waits (ApiService.fetchWithRetry fn 3 1000)) = 3000.
Proof.
  apply (proj2 (proj2 (retry_gives_up_after_max_retries
                         (λ i : nat, @inl string string "offline") 3 1000)));
    [lia|done|].
  intros j _. by exists "offline".
Defined.
